(** * ATHENA [plymesh.py]: polygon mesh to triangle buffers

    A shallow embedding of [src/athena/plymesh.py].  The closures of
    [PlyMesh.__init__] mutate the enclosing locals ([vtx_idx], [tri_idx],
    the two numpy arrays and the dict [internal_vertices]); here they are
    the fields of one [state] threaded through a state-and-exception monad.
    Python exceptions are values of [exn].  Single-precision cells are the
    rationals they denote; the floating-point routines (normal
    computation, SVD projection, earcut) are the operations of the class
    [Numerics]. *)

From Stdlib Require Import ZArith QArith Qabs Lia.
From stdpp Require Import gmap list strings.

Close Scope Q_scope.
Open Scope Z_scope.

(** ** Exceptions and results *)

Inductive exn : Type :=
| AssertionError            (* [assert(cond)] failed; no message is given *)
| IndexError                (* numpy index out of bounds *)
| NameError (name : string) (* unbound name *)
| TypeError                 (* a non-callable was called *)
| KeyError                  (* dict key absent *)
| RuntimeError              (* StopIteration raised inside a generator *)
| ValueError                (* truth value of an array is ambiguous *)
| ExternalError.            (* raised inside an external numeric routine *)

Inductive result (A : Type) : Type :=
| Ok (a : A)
| Raise (e : exn).
Arguments Ok {A} a.
Arguments Raise {A} e.

Definition rbind {A B} (r : result A) (k : A -> result B) : result B :=
  match r with
  | Ok a => k a
  | Raise e => Raise e
  end.

Definition rmap {A B} (f : A -> B) (r : result A) : result B :=
  rbind r (fun a => Ok (f a)).

Fixpoint rmapM {A B} (f : A -> result B) (l : list A) : result (list B) :=
  match l with
  | [] => Ok []
  | x :: r => rbind (f x) (fun y => rbind (rmapM f r) (fun ys => Ok (y :: ys)))
  end.

Definition is_ok {A} (r : result A) : bool :=
  match r with Ok _ => true | Raise _ => false end.

(** ** numpy indexing

    An index [i] into an axis of length [n] is valid when [-n <= i < n];
    a negative index counts from the end.  Anything else is IndexError. *)

Definition np_norm_index (n i : Z) : option nat :=
  let j := if i <? 0 then i + n else i in
  if (0 <=? j) && (j <? n) then Some (Z.to_nat j) else None.

Definition np_index {A} (arr : list A) (i : Z) : result A :=
  match np_norm_index (Z.of_nat (length arr)) i with
  | Some j =>
      match arr !! j with
      | Some x => Ok x
      | None => Raise IndexError
      end
  | None => Raise IndexError
  end.

Definition np_setitem {A} (arr : list A) (i : Z) (x : A) : result (list A) :=
  match np_norm_index (Z.of_nat (length arr)) i with
  | Some j => Ok (<[j:=x]> arr)
  | None => Raise IndexError
  end.

(** [np.take(arr, idxs, axis=0)] with the default [mode='raise']. *)
Definition np_take {A} (arr : list A) (idxs : list Z) : result (list A) :=
  rmapM (np_index arr) idxs.

(** ** Qt3D base types *)

Inductive basetype : Type :=
| Byte | UnsignedByte | Short | UnsignedShort | Int | UnsignedInt
| HalfFloat | Float | Double.

Definition _basetype_widths (t : basetype) : Z :=
  match t with
  | Byte | UnsignedByte => 1
  | Short | UnsignedShort | HalfFloat => 2
  | Int | UnsignedInt | Float => 4
  | Double => 8
  end.

(** Storing an integer array into an array of dtype [t]: numpy casts
    element-wise without a range check, i.e. reduces modulo [2^(8*width)]
    (two's complement for the signed types). *)
Definition np_cast (t : basetype) (v : Z) : Z :=
  let m := 2 ^ (8 * _basetype_widths t) in
  match t with
  | UnsignedByte | UnsignedShort | UnsignedInt => v mod m
  | Byte | Short | Int => (v + m / 2) mod m - m / 2
  | HalfFloat | Float | Double => v
  end.

(** ** Edges *)

Definition edge (a b : Z) : Z * Z := (Z.min a b, Z.max a b).

Fixpoint edgeIter_loop (i0 i_last : Z) (it : list Z) : list (Z * Z) :=
  match it with
  | [] => [edge i_last i0]
  | i :: it' => edge i_last i :: edgeIter_loop i0 i it'
  end.

(** The generator [edgeIter], run to exhaustion.  On an empty [poly] the
    call [next(it)] raises StopIteration inside the generator body, which
    the consumer sees as RuntimeError. *)
Definition edgeIter (poly : list Z) : result (list (Z * Z)) :=
  match poly with
  | [] => Raise RuntimeError
  | i0 :: it => Ok (edgeIter_loop i0 i0 it)
  end.

(** ** Module namespace and the class [EdgeDict]

    A method body that mentions a bare name resolves it among the
    module-level bindings (the class body is not an enclosing scope). *)

Inductive pyobj : Type :=
| PyOpaque                                  (* module, class, dict, ... *)
| PyEdgeFun (f : Z -> Z -> Z * Z).          (* a function of two indices *)

Definition module_globals : list (string * pyobj) :=
  [ ("Path", PyOpaque); ("struct", PyOpaque); ("itertools", PyOpaque);
    ("QByteArray", PyOpaque); ("Qt", PyOpaque); ("Qt3DCore", PyOpaque);
    ("Qt3DRender", PyOpaque); ("PlyData", PyOpaque); ("PlyElement", PyOpaque);
    ("np", PyOpaque); ("geom", PyOpaque); ("earcut", PyOpaque);
    ("_basetypes", PyOpaque); ("_basetype_data", PyOpaque);
    ("_basetype_widths", PyOpaque); ("_basetype_struct_codes", PyOpaque);
    ("_basetype_numpy_codes", PyOpaque); ("tri_norm", PyOpaque);
    ("EdgeDict", PyOpaque); ("edge", PyEdgeFun edge); ("edgeIter", PyOpaque);
    ("PlyMesh", PyOpaque); ("WireOutline", PyOpaque) ]%string.

Fixpoint assoc_string {V} (name : string) (l : list (string * V)) : option V :=
  match l with
  | [] => None
  | (k, v) :: r => if String.eqb k name then Some v else assoc_string name r
  end.

Definition load_global (name : string) : result pyobj :=
  match assoc_string name module_globals with
  | Some o => Ok o
  | None => Raise (NameError name)
  end.

Definition call_global2 (name : string) (a b : Z) : result (Z * Z) :=
  rbind (load_global name) (fun o =>
    match o with
    | PyEdgeFun f => Ok (f a b)
    | PyOpaque => Raise TypeError
    end).

Module EdgeDict.

Record t : Type := Build { edges : gmap (Z * Z) Z }.

Definition __init__ : t := {| edges := ∅ |}.

(** The class attribute [_key], a classmethod declared with the two
    parameters [(a, b)]: in a call [EdgeDict._key(a, b)] the class itself
    is bound to the first parameter, so the two arguments are one too
    many and the call raises TypeError.  The methods below do not reach
    it: they call the bare name [_key]. *)
Definition _key (a b : Z) : result (Z * Z) := Raise TypeError.

Definition addEdge (self : t) (a b idx : Z) : result t :=
  rbind (call_global2 "_key" a b) (fun k =>
    Ok {| edges := <[k:=idx]> (edges self) |}).

Definition hasEdge (self : t) (a b : Z) : result bool :=
  rbind (call_global2 "_key" a b) (fun k =>
    Ok (bool_decide (is_Some (edges self !! k)))).

Definition getEdge (self : t) (a b : Z) : result Z :=
  rbind (call_global2 "_key" a b) (fun k =>
    match edges self !! k with
    | Some idx => Ok idx
    | None => Raise KeyError
    end).

End EdgeDict.

(** ** The vertex pool

    [vertex_nparr] is a float array with 7 columns: x, y, z, three cells
    that stay zero, and the interior flag in column 6. *)

Record vrow : Type := VRow {
  vx : Q; vy : Q; vz : Q;
  v3 : Q; v4 : Q; v5 : Q;
  interior : Q
}.

Definition zero_row : vrow := VRow 0 0 0 0 0 0 0.

Definition set_interior (r : vrow) (i : Q) : vrow :=
  VRow (vx r) (vy r) (vz r) (v3 r) (v4 r) (v5 r) i.

(** A record of [plydata['vertex'].data]. *)
Record ply_vertex : Type := PlyVertex { x : Q; y : Q; z : Q }.

Definition row_of_vertex (v : ply_vertex) : vrow :=
  VRow (x v) (y v) (z v) 0 0 0 0.

Definition pos : Type := Q * Q * Q.

(** [poly_verts[:,0:3]] *)
Definition xyz (r : vrow) : pos := (vx r, vy r, vz r).

(** ** State of [PlyMesh.__init__] and its closures *)

Record state : Type := State {
  vertex_nparr : list vrow;
  vtx_idx : Z;
  index_basetype : basetype;      (* dtype of [tri_nparr] *)
  tri_nparr : list (Z * Z * Z);
  tri_idx : Z;
  internal_vertices : gmap Z Z
}.

Definition M (A : Type) : Type := state -> result (A * state).

Definition ret {A} (a : A) : M A := fun s => Ok (a, s).

Definition bind {A B} (m : M A) (k : A -> M B) : M B :=
  fun s =>
    match m s with
    | Ok (a, s') => k a s'
    | Raise e => Raise e
    end.

Definition lift {A} (r : result A) : M A :=
  fun s =>
    match r with
    | Ok a => Ok (a, s)
    | Raise e => Raise e
    end.

Definition get : M state := fun s => Ok (s, s).

Definition assert (b : bool) : M unit :=
  if b then ret tt else lift (Raise AssertionError).

Declare Scope py_scope.
Delimit Scope py_scope with py.
Notation "'let*' x ':=' m 'in' k" := (bind m (fun x => k))
  (at level 10, x pattern, m at level 100, k at level 200) : py_scope.
Open Scope py_scope.

Fixpoint for_each {A} (l : list A) (body : A -> M unit) : M unit :=
  match l with
  | [] => ret tt
  | a :: r => let* _ := body a in for_each r body
  end.

(** The closure [add_vtx(v, interior=1)]. *)
Definition add_vtx (v : vrow) (interior : Q) : M Z :=
  fun s =>
    match np_setitem (vertex_nparr s) (vtx_idx s) (set_interior v interior) with
    | Ok arr =>
        let vtx_idx' := vtx_idx s + 1 in
        Ok (vtx_idx' - 1,
            State arr vtx_idx' (index_basetype s) (tri_nparr s) (tri_idx s)
                  (internal_vertices s))
    | Raise e => Raise e
    end.

(** The closure [internalize_vtx(v)]. *)
Definition internalize_vtx (v : Z) : M Z :=
  fun s =>
    match internal_vertices s !! v with
    | Some idx => Ok (idx, s)
    | None =>
        bind (lift (np_index (vertex_nparr s) v)) (fun vert_data =>
        bind (add_vtx vert_data 1) (fun new_idx => fun s' =>
          Ok (new_idx,
              State (vertex_nparr s') (vtx_idx s') (index_basetype s')
                    (tri_nparr s') (tri_idx s')
                    (<[v:=new_idx]> (internal_vertices s'))))) s
    end.

(** The closure [add_tri(t)]: the row is cast to the dtype of [tri_nparr]. *)
Definition add_tri (t : Z * Z * Z) : M Z :=
  fun s =>
    let '(a, b, c) := t in
    let bt := index_basetype s in
    match np_setitem (tri_nparr s) (tri_idx s)
                     (np_cast bt a, np_cast bt b, np_cast bt c) with
    | Ok arr =>
        let tri_idx' := tri_idx s + 1 in
        Ok (tri_idx' - 1,
            State (vertex_nparr s) (vtx_idx s) bt arr tri_idx'
                  (internal_vertices s))
    | Raise e => Raise e
    end.

(** ** Floating-point routines

    A float result is a finite value or NaN (a degenerate triangle makes
    [tri_norm] divide by a zero norm).  The routines themselves are not
    evaluated here:
    - [tri_norm a b c]: the normalised cross product of [a-b] and [a-c];
    - [np_dot]: the dot product of two such normals;
    - [project_earcut poly_geom]: centroid removal, SVD, projection on the
      first two right-singular vectors, [earcut.flatten] and
      [earcut.earcut]; its value is the list [new_tris]. *)

Inductive npfloat : Type :=
| Finite (q : Q)
| NaN.

Class Numerics : Type := {
  nvec : Type;
  tri_norm : pos -> pos -> pos -> nvec;
  np_dot : nvec -> nvec -> npfloat;
  project_earcut : list pos -> result (list Z)
}.

(** [np.isclose(a, b, rtol=rtol)] with the default [atol=1e-8] and
    [equal_nan=False]: [|a - b| <= atol + rtol * |b|]. *)
Definition np_atol : Q := (1 # 100000000)%Q.

Definition np_isclose (a : npfloat) (b rtol : Q) : bool :=
  match a with
  | Finite v => Qle_bool (Qabs (v - b)) (np_atol + rtol * Qabs b)
  | NaN => false
  end.

(** The literal [1e-1]. *)
Definition rtol_1e_1 : Q := (1 # 10)%Q.

(** Modelled from the spec: [geom.grouper] is not among the sources.  The
    triangulation routine returns "a sequence of integers, length a
    multiple of 3, each triple naming three local indices";
    [grouper new_tris] yields these triples in order.  A shorter last
    group is padded with [None], as [itertools.zip_longest] pads. *)
Fixpoint grouper (l : list Z) : list (option Z * option Z * option Z) :=
  match l with
  | [] => []
  | [a] => [(Some a, None, None)]
  | [a; b] => [(Some a, Some b, None)]
  | a :: b :: c :: r => (Some a, Some b, Some c) :: grouper r
  end.

(** [poly[a]]: an integer for an integer index; for [None] numpy returns
    a two-dimensional view, here [None]. *)
Definition poly_item (poly : list Z) (a : option Z) : result (option Z) :=
  match a with
  | Some i => rmap Some (np_index poly i)
  | None => Ok None
  end.

(** [edge(p, q)] on values read from [poly]: comparing with an array view
    raises ValueError inside [min]. *)
Definition edge_of (p q : option Z) : result (Z * Z) :=
  match p, q with
  | Some a, Some b => Ok (edge a b)
  | _, _ => Raise ValueError
  end.

Definition as_int (p : option Z) : result Z :=
  match p with
  | Some v => Ok v
  | None => Raise ValueError
  end.

(** [(l[x,:] for x in range(3))] *)
Definition first_three {A} (l : list A) : result (A * A * A) :=
  rbind (np_index l 0) (fun a =>
  rbind (np_index l 1) (fun b =>
  rbind (np_index l 2) (fun c => Ok (a, b, c)))).

(** Body of the loop [for a,b,c in geom.grouper(new_tris,3)]. *)
Definition tri_body (poly : list Z) (external_edges : gset (Z * Z))
    (flip : bool) (t : option Z * option Z * option Z) : M unit :=
  let '(a, b, c) := t in
  let* idx_a := lift (poly_item poly a) in
  let* idx_b := lift (poly_item poly b) in
  let* idx_c := lift (poly_item poly c) in
  let '(idx_b, idx_c) := if flip then (idx_c, idx_b) else (idx_b, idx_c) in
  let* edge_a := lift (edge_of idx_a idx_b) in
  let* edge_b := lift (edge_of idx_b idx_c) in
  let* edge_c := lift (edge_of idx_c idx_a) in
  let* idx_a := lift (as_int idx_a) in
  let* idx_b := lift (as_int idx_b) in
  let* idx_c := lift (as_int idx_c) in
  let* idx_a :=
    (if bool_decide (edge_a ∉ external_edges)
     then internalize_vtx idx_a else ret idx_a) in
  let* idx_b :=
    (if bool_decide (edge_b ∉ external_edges)
     then internalize_vtx idx_b else ret idx_b) in
  let* idx_c :=
    (if bool_decide (edge_c ∉ external_edges)
     then internalize_vtx idx_c else ret idx_c) in
  let* _ := add_tri (idx_a, idx_b, idx_c) in
  ret tt.

(** The winding test of one polygon. *)
Definition flip_of (normcheck : npfloat) : bool :=
  negb (np_isclose normcheck 1 rtol_1e_1).

(** The [else] branch of the loop over [faces]. *)
Definition process_ngon `{Numerics} (poly : list Z) : M unit :=
  let* edges := lift (edgeIter poly) in
  let external_edges : gset (Z * Z) := list_to_set edges in
  let* _ := assert (bool_decide (size external_edges = length poly)) in
  let* s := get in
  let* poly_verts := lift (np_take (vertex_nparr s) poly) in
  let poly_geom := map xyz poly_verts in
  let* (p0, p1, p2) := lift (first_three poly_geom) in
  let poly_normal := tri_norm p0 p1 p2 in
  let* new_tris := lift (project_earcut poly_geom) in
  let* geom_tri0 := lift (np_take poly_geom (take 3 new_tris)) in
  let* (g0, g1, g2) := lift (first_three geom_tri0) in
  let tri0_norm := tri_norm g0 g1 g2 in
  let normcheck := np_dot tri0_norm poly_normal in
  let flip := flip_of normcheck in
  for_each (grouper new_tris) (tri_body poly external_edges flip).

(** Body of the loop [for poly in faces]. *)
Definition process_poly `{Numerics} (poly : list Z) : M unit :=
  match poly with
  | [a; b; c] => let* _ := add_tri (a, b, c) in ret tt
  | _ => process_ngon poly
  end.

(** ** [PlyMesh.__init__] *)

Definition len {A} (l : list A) : Z := Z.of_nat (length l).

Definition large_faces (faces : list (list Z)) : list (list Z) :=
  filter (fun x => 3 < len x) faces.

Definition num_large_faces (faces : list (list Z)) : Z :=
  len (large_faces faces).

Definition num_tris (faces : list (list Z)) : Z :=
  len faces - num_large_faces faces.

Fixpoint sum (l : list Z) : Z :=
  match l with
  | [] => 0
  | n :: r => n + sum r
  end.

Definition num_interior_tris (faces : list (list Z)) : Z :=
  sum (map len (large_faces faces)).

Definition total_vertices (vertices : list ply_vertex) : Z :=
  len vertices * 2.

Definition total_tris (faces : list (list Z)) : Z :=
  num_tris faces + num_interior_tris faces.

Definition vertex_basetype : basetype := Float.

Definition select_index_basetype (total_tris : Z) : basetype :=
  if total_tris <? 30000 then UnsignedShort else UnsignedInt.

(** [np.zeros([n, ...])] *)
Definition np_zeros {A} (zero : A) (n : Z) : list A :=
  replicate (Z.to_nat n) zero.

(** The three slice assignments [vertex_nparr[:len(vertices),k] = ...].
    The array is float32 and the assignment casts; the coordinates of
    [vertices] are taken here as the float32 values that reach the array
    (a PLY file with [float] properties gives such values, and they are
    stored as they are). *)
Fixpoint fill_xyz (vertices : list ply_vertex) (arr : list vrow) : list vrow :=
  match vertices, arr with
  | v :: vs, r :: arr' =>
      VRow (x v) (y v) (z v) (v3 r) (v4 r) (v5 r) (interior r) :: fill_xyz vs arr'
  | _, _ => arr
  end.

(** The locals when the loop over [faces] starts. *)
Definition init_state (vertices : list ply_vertex) (faces : list (list Z)) : state :=
  {| vertex_nparr := fill_xyz vertices (np_zeros zero_row (total_vertices vertices));
     vtx_idx := len vertices;
     index_basetype := select_index_basetype (total_tris faces);
     tri_nparr := np_zeros (0, 0, 0) (total_tris faces);
     tri_idx := 0;
     internal_vertices := ∅ |}.

(** The locals when the loop over [faces] has finished. *)
Definition PlyMesh_run `{Numerics} (vertices : list ply_vertex)
    (faces : list (list Z)) : result state :=
  match for_each faces process_poly (init_state vertices faces) with
  | Ok (_, s) => Ok s
  | Raise e => Raise e
  end.

Inductive attribute_type : Type := VertexAttribute | IndexAttribute.

Record QAttribute : Type := {
  attr_name : string;
  vertexBaseType : basetype;
  vertexSize : Z;
  attributeType : attribute_type;
  byteStride : Z;
  byteOffset : Z;
  count : Z
}.

(** The entity that [__init__] leaves behind.  A buffer holds the rows of
    the array whose [tobytes()] it was given. *)
Record PlyMesh : Type := {
  qvbytes : list vrow;
  positionAttr : QAttribute;
  interiorAttr : QAttribute;
  qibytes : list (Z * Z * Z);
  indexAttr : QAttribute
}.

Definition build_entity (faces : list (list Z)) (s : state) : PlyMesh :=
  {| qvbytes := vertex_nparr s;
     positionAttr :=
       {| attr_name := "vertexPosition";
          vertexBaseType := vertex_basetype;
          vertexSize := 3;
          attributeType := VertexAttribute;
          byteStride := 7 * _basetype_widths vertex_basetype;
          byteOffset := 0;
          count := len (vertex_nparr s) |};
     interiorAttr :=
       {| attr_name := "vertexInterior";
          vertexBaseType := vertex_basetype;
          vertexSize := 1;
          attributeType := VertexAttribute;
          byteStride := 7 * _basetype_widths vertex_basetype;
          byteOffset := 6 * _basetype_widths vertex_basetype;
          count := len (vertex_nparr s) |};
     qibytes := tri_nparr s;
     indexAttr :=
       {| attr_name := "";
          vertexBaseType := index_basetype s;
          vertexSize := 1;
          attributeType := IndexAttribute;
          byteStride := 0;
          byteOffset := 0;
          count := 3 * total_tris faces |} |}.

Definition PlyMesh_init `{Numerics} (vertices : list ply_vertex)
    (faces : list (list Z)) : result PlyMesh :=
  rmap (build_entity faces) (PlyMesh_run vertices faces).

(** ** A concrete instance of the numeric routines

    Used for the worked examples only: the triangulation is the fan
    [0,1,2, 0,2,3, ...] (one triangulation of a convex polygon) and every
    normal comparison gives the dot product [nc]. *)

Fixpoint fan_from (k : nat) (i : Z) : list Z :=
  match k with
  | O => []
  | S k' => 0 :: i :: (i + 1) :: fan_from k' (i + 1)
  end.

Definition fan (n : nat) : list Z := fan_from (n - 2) 1.

Definition fan_numerics (nc : npfloat) : Numerics :=
  {| nvec := unit;
     tri_norm := fun _ _ _ => tt;
     np_dot := fun _ _ => nc;
     project_earcut := fun poly_geom => Ok (fan (length poly_geom)) |}.

(** ** Specification-side notions *)

(** The winding correction as the specification words it: one decision
    per polygon, and when it is to flip, "swap the second and third local
    index of every output triangle before further processing". *)
Definition swap23 {A} (t : A * A * A) : A * A * A :=
  let '(a, b, c) := t in (a, c, b).

Definition WindingCorrector (flip : bool)
    (groups : list (option Z * option Z * option Z)) :
    list (option Z * option Z * option Z) :=
  if flip then map swap23 groups else groups.

Definition process_ngon_spec `{Numerics} (poly : list Z) : M unit :=
  let* edges := lift (edgeIter poly) in
  let external_edges : gset (Z * Z) := list_to_set edges in
  let* _ := assert (bool_decide (size external_edges = length poly)) in
  let* s := get in
  let* poly_verts := lift (np_take (vertex_nparr s) poly) in
  let poly_geom := map xyz poly_verts in
  let* (p0, p1, p2) := lift (first_three poly_geom) in
  let* new_tris := lift (project_earcut poly_geom) in
  let* geom_tri0 := lift (np_take poly_geom (take 3 new_tris)) in
  let* (g0, g1, g2) := lift (first_three geom_tri0) in
  let normcheck := np_dot (tri_norm g0 g1 g2) (tri_norm p0 p1 p2) in
  let corrected := WindingCorrector (flip_of normcheck) (grouper new_tris) in
  for_each corrected (tri_body poly external_edges false).

(** Number of distinct canonical boundary edges of a face. *)
Definition boundary_edge_count (poly : list Z) : nat :=
  match edgeIter poly with
  | Ok edges => size (list_to_set edges : gset (Z * Z))
  | Raise _ => 0
  end.

(** Face counts as the specification names them. *)
Definition numTriFaces (faces : list (list Z)) : Z :=
  len (filter (fun x => len x = 3) faces).

Definition numNgonVerts (faces : list (list Z)) : Z :=
  sum (map len (filter (fun x => 3 < len x) faces)).

(** Cells representable in the index dtype. *)
Definition in_dtype (bt : basetype) (v : Z) : Prop :=
  0 <= v < 2 ^ (8 * _basetype_widths bt).

Definition distinct3 (t : Z * Z * Z) : Prop :=
  let '(a, b, c) := t in a <> b /\ b <> c /\ a <> c.

Definition below3 (n : Z) (t : Z * Z * Z) : Prop :=
  let '(a, b, c) := t in 0 <= a < n /\ 0 <= b < n /\ 0 <= c < n.

(** The input contract on a face: indices within the vertex array, no
    index repeated. *)
Definition face_ok (n0 : Z) (poly : list Z) : Prop :=
  NoDup poly /\ forall v, v ∈ poly -> 0 <= v < n0.

(** The contract of the triangulation routine on a ring of [n] points:
    every triple names three different local indices of the ring. *)
Definition group_ok (n : Z) (g : option Z * option Z * option Z) : Prop :=
  match g with
  | (Some a, Some b, Some c) => below3 n (a, b, c) /\ distinct3 (a, b, c)
  | _ => True
  end.

Definition earcut_ok `{Numerics} : Prop :=
  forall poly_geom new_tris,
    project_earcut poly_geom = Ok new_tris ->
    Forall (group_ok (len poly_geom)) (grouper new_tris).

(** ** Loop invariant

    [n0] is the number of input vertices and [T] the row count of
    [tri_nparr]. *)
Record wf (n0 T : Z) (s : state) : Prop := {
  wf_vlen : len (vertex_nparr s) = 2 * n0;
  wf_vidx : n0 <= vtx_idx s <= 2 * n0;
  wf_n0 : 0 <= n0;
  wf_tlen : len (tri_nparr s) = T;
  wf_tidx : 0 <= tri_idx s <= T;
  wf_dtype : index_basetype s = select_index_basetype T;
  wf_vtail : forall (i : nat) r,
      vtx_idx s <= Z.of_nat i -> vertex_nparr s !! i = Some r -> r = zero_row;
  wf_ttail : forall (j : nat) t,
      tri_idx s <= Z.of_nat j -> tri_nparr s !! j = Some t -> t = (0, 0, 0);
  wf_cells : forall (j : nat) a b c,
      tri_nparr s !! j = Some (a, b, c) ->
      in_dtype (index_basetype s) a /\ in_dtype (index_basetype s) b
      /\ in_dtype (index_basetype s) c;
  wf_map : forall k i,
      internal_vertices s !! k = Some i ->
      n0 <= i < vtx_idx s
      /\ exists r, vertex_nparr s !! Z.to_nat i = Some r /\ interior r = 1%Q;
  wf_inj : forall k1 k2 i,
      internal_vertices s !! k1 = Some i ->
      internal_vertices s !! k2 = Some i -> k1 = k2
}.

(** Every row written so far is a proper triangle on filled slots. *)
Definition tris_ok (s : state) : Prop :=
  forall (j : nat) t,
    Z.of_nat j < tri_idx s -> tri_nparr s !! j = Some t ->
    distinct3 t /\ below3 (vtx_idx s) t.

(** Partial correctness triples for the monad. *)
Definition hoare {A} (P : state -> Prop) (m : M A) (Q : A -> state -> Prop) : Prop :=
  forall s a s', P s -> m s = Ok (a, s') -> Q a s'.


(** The dict entry [V -> i] is present. *)
Definition keeps (V i : Z) (s : state) : Prop :=
  internal_vertices s !! V = Some i.

(** A face the conversion cannot accept: not a triangle, and either its
    distinct boundary edges are not as many as its vertices or it has
    fewer than three vertices. *)
Definition offending (poly : list Z) : Prop :=
  length poly <> 3%nat
  /\ (boundary_edge_count poly <> length poly \/ (length poly < 3)%nat).

(** [s'] extends [s] by duplicates only: the index pool and its cursor
    are the same, the vertex cursor has not moved back, and no dict entry
    is lost. *)
Definition extends (s s' : state) : Prop :=
  tri_nparr s' = tri_nparr s /\ tri_idx s' = tri_idx s
  /\ vtx_idx s <= vtx_idx s'
  /\ forall k i, internal_vertices s !! k = Some i ->
                 internal_vertices s' !! k = Some i.

(** The pool index [i] stands for the original vertex [v]: it is [v]
    itself or the duplicate of [v]. *)
Definition stands_for (s : state) (v i : Z) : Prop :=
  i = v \/ internal_vertices s !! v = Some i.

(** The pool can hold every vertex index in the chosen index width. *)
Definition indices_fit (vertices : list ply_vertex) (faces : list (list Z)) : Prop :=
  2 * len vertices
  <= 2 ^ (8 * _basetype_widths (select_index_basetype (total_tris faces))).

(** ** Worked inputs *)

Definition origin : ply_vertex := PlyVertex 0 0 0.

Definition one_quad : list (list Z) := [[0; 1; 2; 3]].

Definition fan1 : Numerics := fan_numerics (Finite 1).

(** ** Further notions used by the additional properties *)

(** [set(edgeIter(poly))], the value bound to [external_edges]. *)
Definition external_edges_of (poly : list Z) : result (gset (Z * Z)) :=
  rmap (fun edges => list_to_set edges) (edgeIter poly).

(** [e] joins two cyclically consecutive vertices of [poly]. *)
Definition cyclic_pair (poly : list Z) (e : Z * Z) : Prop :=
  (exists (k : nat) x y,
     poly !! k = Some x /\ poly !! S k = Some y /\ e = edge x y)
  \/ (exists x y, last poly = Some x /\ head poly = Some y /\ e = edge x y).

(** Layout of the vertex pool during the loop: the rows of the input
    vertices are as they were filled in, and the slots after them are the
    duplicates, one for each key of [internal_vertices]. *)
Record pool (vertices : list ply_vertex) (s : state) : Prop := {
  pool_orig : forall (k : nat) v,
      vertices !! k = Some v -> vertex_nparr s !! k = Some (row_of_vertex v);
  pool_size :
      vtx_idx s = len vertices + Z.of_nat (size (internal_vertices s));
  pool_onto : forall i,
      len vertices <= i < vtx_idx s ->
      exists k, internal_vertices s !! k = Some i;
  pool_copy : forall k i v,
      internal_vertices s !! k = Some i ->
      0 <= k -> vertices !! Z.to_nat k = Some v ->
      vertex_nparr s !! Z.to_nat i = Some (set_interior (row_of_vertex v) 1)
}.

Definition wf_pool (vertices : list ply_vertex) (T : Z) (s : state) : Prop :=
  wf (len vertices) T s /\ pool vertices s.

(** Four vertices with coordinates of their own. *)
Definition square : list ply_vertex :=
  [PlyVertex 0 0 0; PlyVertex 1 0 0; PlyVertex 1 1 0; PlyVertex 0 1 0].

(** The row that [tri_nparr[tri_idx,:] = poly] stores for a triangular
    face in an index pool of base type [bt]. *)
Definition cast_face (bt : basetype) (poly : list Z) : Z * Z * Z :=
  match poly with
  | [a; b; c] => (np_cast bt a, np_cast bt b, np_cast bt c)
  | _ => (0, 0, 0)
  end.

(** The index that a corner of an emitted triangle gets: the vertex [v]
    itself when the edge [e] that leaves the corner is a boundary edge of
    the polygon, the duplicate of [v] otherwise. *)
Definition corner (s : state) (external_edges : gset (Z * Z))
    (e : Z * Z) (v : Z) : option Z :=
  if bool_decide (e ∈ external_edges) then Some v
  else internal_vertices s !! v.

(** Every key of [internal_vertices] is the index of an input vertex. *)
Definition keys_ok (n0 : Z) (s : state) : Prop :=
  forall k i, internal_vertices s !! k = Some i -> 0 <= k < n0.

(** The state of the loop on an input that meets the input contract. *)
Definition loop_inv (vertices : list ply_vertex) (T : Z) (s : state) : Prop :=
  wf_pool vertices T s /\ keys_ok (len vertices) s.

(** A triple of local indices of a ring of [n] points. *)
Definition full_group (n : Z) (g : option Z * option Z * option Z) : Prop :=
  exists a b c, g = (Some a, Some b, Some c)
                /\ 0 <= a < n /\ 0 <= b < n /\ 0 <= c < n.

(** Rows of the index pool that a face may take: one for a triangle, as
    many as it has vertices otherwise. *)
Definition face_budget (poly : list Z) : Z :=
  if 3 <? len poly then len poly else 1.



(** Every row written so far names, corner by corner, three vertices of
    one input face or their duplicates. *)
Definition tris_from (faces : list (list Z)) (s : state) : Prop :=
  forall (j : nat) a b c,
    Z.of_nat j < tri_idx s -> tri_nparr s !! j = Some (a, b, c) ->
    exists poly ka kb kc,
      poly ∈ faces /\ ka ∈ poly /\ kb ∈ poly /\ kc ∈ poly
      /\ stands_for s ka a /\ stands_for s kb b /\ stands_for s kc c.

(** The pool row [i] carries the coordinates of the input vertex [k]. *)
Definition shows (vertices : list ply_vertex) (s : state) (k i : Z) : Prop :=
  exists v r,
    vertices !! Z.to_nat k = Some v
    /\ vertex_nparr s !! Z.to_nat i = Some r
    /\ xyz r = (x v, y v, z v).

(** ** [WireOutline.__init__]

    [faces] is [plydata['face'].data]; a record [poly] of it is given
    here by its first field [poly[0]], the list of its vertex indices.
    A generator is the list of the pairs it yields together with the
    exception that ends it, if any. *)

(** A call [getQAttribute(geom, ...)]: the name is looked up among the
    module-level bindings, and none of the objects bound there takes
    these arguments. *)
Definition call_getQAttribute : result QAttribute :=
  rbind (load_global "getQAttribute") (fun _ => Raise TypeError).

Fixpoint edge_index_iter_loop (i0 i_last : Z) (it : list Z) : list (Z * Z) :=
  match it with
  | [] => [(Z.min i_last i0, Z.max i_last i0)]
  | i :: it' =>
      (Z.min i_last i, Z.max i_last i) :: edge_index_iter_loop i0 i it'
  end.

Fixpoint edge_index_iter (faces : list (list Z)) : list (Z * Z) * option exn :=
  match faces with
  | [] => ([], None)
  | indices :: faces' =>
      match indices with
      | [] => ([], Some RuntimeError)
      | i0 :: it =>
          let '(pairs, e) := edge_index_iter faces' in
          (edge_index_iter_loop i0 i0 it ++ pairs, e)
      end
  end.

(** [set(pair for pair in edge_index_iter())] *)
Definition unique_edges (faces : list (list Z)) : result (gset (Z * Z)) :=
  match edge_index_iter faces with
  | (pairs, None) => Ok (list_to_set pairs)
  | (_, Some e) => Raise e
  end.

(** The entity that [__init__] would leave behind.  The index buffer
    holds the pairs of [unique_edges], two cells for each. *)
Record WireOutline : Type := {
  wo_position : QAttribute;
  wo_edges : gset (Z * Z);
  wo_indexAttr : QAttribute
}.

Definition WireOutline_init (faces : list (list Z)) : result WireOutline :=
  rbind call_getQAttribute (fun vatt =>
  rbind (unique_edges faces) (fun edges =>
  rbind call_getQAttribute (fun iatt =>
    let index_type := vertexBaseType iatt in
    Ok {| wo_position := vatt;
          wo_edges := edges;
          wo_indexAttr :=
            {| attr_name := "";
               vertexBaseType := index_type;
               vertexSize := 1;
               attributeType := IndexAttribute;
               byteStride := 0;
               byteOffset := 0;
               count := 2 * Z.of_nat (size edges) |} |}))).

(** Rows of the index pool that such a triangulation fills for a face. *)
Definition face_rows (poly : list Z) : Z :=
  if 3 <? len poly then len poly - 2 else 1.

(** ** The numeric routines on convex rings in the plane [z = 0]

    Values of [tri_norm], [np.dot] and of the projection and
    triangulation step on rings whose points have small integer
    coordinates and [z = 0], where the float32 arithmetic is exact.

    - The cross product of two vectors of the plane is [(0, 0, w)], so the
      unit normal is [(0, 0, 1)] or [(0, 0, -1)] by the sign of [w], and
      not a number when [w = 0]; a normal is given by its [z] component.
    - [earcut] on a strictly convex ring starts at the last node of its
      list, cuts the triangle (previous, ear, next), and goes on two nodes
      further.  The list is the ring as given when the projected ring is
      counter-clockwise, and the reversed ring otherwise.
    - The projection on the two singular vectors keeps the orientation of
      a ring or mirrors it, by the signs of the singular vectors;
      [mirror] says which, ring by ring.
    - On a ring whose points all coincide [earcut] returns no triangle.
    - No value is recorded for other rings: the instance raises there. *)

Definition cross_z (a b c : pos) : Q :=
  let '(ax, ay, _) := a in
  let '(bx, by_, _) := b in
  let '(cx, cy, _) := c in
  ((ax - bx) * (ay - cy) - (ay - by_) * (ax - cx))%Q.

Definition planar_tri_norm (a b c : pos) : npfloat :=
  match (Qnum (cross_z a b c) ?= 0)%Z with
  | Gt => Finite 1
  | Lt => Finite (-1)
  | Eq => NaN
  end.

Definition planar_dot (m n : npfloat) : npfloat :=
  match m, n with
  | Finite a, Finite b => Finite (a * b)
  | _, _ => NaN
  end.

(** The turns at the points of a ring: [cross_z] of every three
    cyclically consecutive points. *)
Fixpoint turns_from (l : list pos) : list Q :=
  match l with
  | a :: ((b :: c :: _) as t) => cross_z a b c :: turns_from t
  | _ => []
  end.

Definition turns (ring : list pos) : list Q :=
  turns_from (ring ++ take 2 ring).

Definition in_plane (ring : list pos) : bool :=
  forallb (fun p => Qeq_bool p.2 0) ring.

Definition coincident (ring : list pos) : bool :=
  match ring with
  | [] => true
  | p :: r =>
      forallb (fun q => Qeq_bool q.1.1 p.1.1 && Qeq_bool q.1.2 p.1.2
                        && Qeq_bool q.2 p.2) r
  end.

(** [Some true] for a strictly convex counter-clockwise ring of the
    plane, [Some false] for a clockwise one. *)
Definition convex_ring (ring : list pos) : option bool :=
  if negb (in_plane ring) then None
  else if forallb (fun w => (0 <? Qnum w)%Z) (turns ring) then Some true
  else if forallb (fun w => (Qnum w <? 0)%Z) (turns ring) then Some false
  else None.

(** The triangles of [earcut] on a strictly convex ring of [n] points
    whose projection is counter-clockwise ([forward]) or clockwise. *)
Definition earcut_convex (forward : bool) (n : nat) : result (list Z) :=
  match n, forward with
  | 4%nat, true => Ok [2; 3; 0; 0; 1; 2]
  | 4%nat, false => Ok [1; 0; 3; 3; 2; 1]
  | 5%nat, true => Ok [3; 4; 0; 0; 1; 2; 2; 3; 0]
  | 5%nat, false => Ok [1; 0; 4; 4; 3; 2; 2; 1; 4]
  | _, _ => Raise ExternalError
  end.

Definition planar_earcut (mirror : list pos -> bool) (ring : list pos) :
    result (list Z) :=
  if coincident ring then Ok []
  else match convex_ring ring with
       | Some ccw => earcut_convex (xorb ccw (mirror ring)) (length ring)
       | None => Raise ExternalError
       end.

Definition planar (mirror : list pos -> bool) : Numerics :=
  {| nvec := npfloat;
     tri_norm := planar_tri_norm;
     np_dot := planar_dot;
     project_earcut := planar_earcut mirror |}.

(** The projection keeps the orientation of every ring, mirrors every
    ring, or mirrors exactly the rings that start at the point [p]. *)
Definition no_mirror : list pos -> bool := fun _ => false.

Definition all_mirror : list pos -> bool := fun _ => true.



(** ** Worked meshes in the plane *)

(** Two convex pentagons that meet in the point [(2, 2)], the third
    vertex of each. *)
Definition two_houses_vertices : list ply_vertex :=
  [PlyVertex 0 0 0; PlyVertex 2 0 0; PlyVertex 2 2 0; PlyVertex 1 3 0;
   PlyVertex 0 2 0; PlyVertex 4 4 0; PlyVertex 2 4 0; PlyVertex 3 1 0;
   PlyVertex 4 2 0].

Definition house : list Z := [0; 1; 2; 3; 4].

Definition two_houses : list (list Z) := [house; [5; 6; 2; 7; 8]].



(** The unit square [square] as one face, and with a triangle on three
    of its corners. *)
Definition quad_and_tri : list (list Z) := [[0; 1; 2; 3]; [3; 1; 2]].

(** ** Further notions *)

(** The input coordinate [q] is a finite float32 value, which the
    assignments [vertex_nparr[:len(vertices),k] = vertices[...]] store
    unchanged. *)
Definition float32_value (q : Q) : Prop :=
  exists m e : Z,
    Z.abs m < 2 ^ 24 /\ -149 <= e <= 104 /\ (q == inject_Z m * 2 ^ e)%Q.

Definition float32_vertex (v : ply_vertex) : Prop :=
  float32_value (x v) /\ float32_value (y v) /\ float32_value (z v).

(** One call of a closure of [__init__] that returns. *)
Inductive closure_step : state -> state -> Prop :=
| step_add_tri t s i s' :
    add_tri t s = Ok (i, s') -> closure_step s s'
| step_internalize_vtx v s i s' :
    internalize_vtx v s = Ok (i, s') -> closure_step s s'.

(** [s'] is [s] after more rows and duplicates: the rows written so far
    and the dict entries are kept. *)
Definition grows (s s' : state) : Prop :=
  index_basetype s' = index_basetype s
  /\ tri_idx s <= tri_idx s'
  /\ (forall j : nat, Z.of_nat j < tri_idx s ->
                      tri_nparr s' !! j = tri_nparr s !! j)
  /\ (forall k i, internal_vertices s !! k = Some i ->
                  internal_vertices s' !! k = Some i).

(** [ring] is the ring of points that the conversion reads from the
    vertex pool for the face [poly], a face of the mesh that is not a
    triangle. *)
Definition ring_of (vertices : list ply_vertex) (faces : list (list Z))
    (poly : list Z) (ring : list pos) : Prop :=
  poly ∈ faces /\ length poly <> 3%nat
  /\ exists poly_verts,
       np_take (vertex_nparr (init_state vertices faces)) poly = Ok poly_verts
       /\ ring = map xyz poly_verts.

(** What the conversion needs from the triangulation on the rings of the
    mesh: whole triples of local indices of the ring, at least one triple
    and at most as many as the ring has points. *)
Definition earcut_total_on `{Numerics} (vertices : list ply_vertex)
    (faces : list (list Z)) : Prop :=
  forall poly ring, ring_of vertices faces poly ring ->
    exists new_tris (k : nat),
      project_earcut ring = Ok new_tris
      /\ length new_tris = (3 * k)%nat
      /\ (1 <= k <= length ring)%nat
      /\ Forall (fun a => 0 <= a < len ring) new_tris.

(** The triangulation of the rings of the mesh as polygons without
    holes: exactly [n - 2] triples for a ring of [n] points. *)
Definition earcut_exact_on `{Numerics} (vertices : list ply_vertex)
    (faces : list (list Z)) : Prop :=
  forall poly ring, ring_of vertices faces poly ring ->
    exists new_tris,
      project_earcut ring = Ok new_tris
      /\ length new_tris = (3 * (length ring - 2))%nat
      /\ Forall (fun a => 0 <= a < len ring) new_tris.

(** The row that one round of the loop over the triangles writes for the
    triple [g] of local indices, in an index pool of base type [bt]: the
    first corner is for [poly[a]]; the second and the third are for
    [poly[b]] and [poly[c]], exchanged when [flip] holds; each corner is
    the vertex or its duplicate, as [corner] says in the state [s']. *)
Definition winding_row (poly : list Z) (external_edges : gset (Z * Z))
    (flip : bool) (s' : state) (bt : basetype)
    (g : option Z * option Z * option Z) (row : Z * Z * Z) : Prop :=
  exists a b c va vb vc ia ib ic,
    g = (Some a, Some b, Some c)
    /\ np_index poly a = Ok va /\ np_index poly b = Ok vb
    /\ np_index poly c = Ok vc
    /\ corner s' external_edges (edge va (if flip then vc else vb)) va
       = Some ia
    /\ corner s' external_edges
         (edge (if flip then vc else vb) (if flip then vb else vc))
         (if flip then vc else vb) = Some ib
    /\ corner s' external_edges (edge (if flip then vb else vc) va)
         (if flip then vb else vc) = Some ic
    /\ row = (np_cast bt ia, np_cast bt ib, np_cast bt ic).

(** * Properties *)

(** ** Results and the monad *)

Lemma rbind_Ok {A B} (r : result A) (k : A -> result B) b :
  rbind r k = Ok b -> exists a, r = Ok a /\ k a = Ok b.
Proof. destruct r as [a|e]; simpl; [eauto | discriminate]. Qed.

Lemma rmap_Ok {A B} (f : A -> B) (r : result A) b :
  rmap f r = Ok b -> exists a, r = Ok a /\ b = f a.
Proof.
  unfold rmap. intros E. apply rbind_Ok in E as (a & -> & E).
  injection E as <-. eauto.
Qed.

Lemma bind_Ok {A B} (m : M A) (k : A -> M B) s b s' :
  bind m k s = Ok (b, s') ->
  exists a s1, m s = Ok (a, s1) /\ k a s1 = Ok (b, s').
Proof.
  unfold bind. destruct (m s) as [[a s1]|e]; [eauto | discriminate].
Qed.

Lemma lift_Ok {A} (r : result A) s a s' :
  lift r s = Ok (a, s') -> r = Ok a /\ s' = s.
Proof. unfold lift. destruct r; intros E; inversion E; auto. Qed.

Lemma ret_Ok {A} (x : A) s a s' : ret x s = Ok (a, s') -> a = x /\ s' = s.
Proof. unfold ret. intros E; inversion E; auto. Qed.

Lemma assert_Ok b s u s' : assert b s = Ok (u, s') -> b = true /\ s' = s.
Proof.
  unfold assert. destruct b.
  - intros [_ ->]%ret_Ok. done.
  - intros [? _]%lift_Ok. discriminate.
Qed.

Lemma hoare_ret {A} (P : state -> Prop) (x : A) : hoare P (ret x) (fun _ => P).
Proof. intros s a s' HP [_ ->]%ret_Ok. done. Qed.

Lemma hoare_lift {A} (P : state -> Prop) (r : result A) :
  hoare P (lift r) (fun _ => P).
Proof. intros s a s' HP [_ ->]%lift_Ok. done. Qed.

Lemma hoare_bind {A B} (P : state -> Prop) (Q : A -> state -> Prop)
    (R : B -> state -> Prop) (m : M A) (k : A -> M B) :
  hoare P m Q -> (forall a, hoare (Q a) (k a) R) -> hoare P (bind m k) R.
Proof.
  intros Hm Hk s b s' HP (a & s1 & E1 & E2)%bind_Ok.
  eapply Hk; [eapply Hm|]; eauto.
Qed.

Lemma hoare_weaken {A} (P P' : state -> Prop) (Q Q' : A -> state -> Prop) m :
  hoare P' m Q' -> (forall s, P s -> P' s) -> (forall a s, Q' a s -> Q a s) ->
  hoare P m Q.
Proof. intros H HP HQ s a s' Hs E. eauto. Qed.

Lemma hoare_for_each {A} (I : state -> Prop) (l : list A) (body : A -> M unit) :
  (forall a, a ∈ l -> hoare I (body a) (fun _ => I)) ->
  hoare I (for_each l body) (fun _ => I).
Proof.
  induction l as [|a l IH]; intros Hb; simpl.
  - apply hoare_ret.
  - eapply hoare_bind.
    + apply Hb. set_solver.
    + intros u. apply IH. intros b Hin. apply Hb. set_solver.
Qed.

Lemma for_each_app {A} (l1 l2 : list A) (body : A -> M unit) s :
  for_each (l1 ++ l2) body s =
  match for_each l1 body s with
  | Ok (_, s1) => for_each l2 body s1
  | Raise e => Raise e
  end.
Proof.
  revert s. induction l1 as [|a l1 IH]; intros s; simpl; [done|].
  unfold bind. destruct (body a s) as [[u s1]|e]; [apply IH | done].
Qed.

(** ** numpy indexing *)

Lemma np_norm_index_Some n i j :
  np_norm_index n i = Some j ->
  (Z.of_nat j < n) /\ (Z.of_nat j = i \/ Z.of_nat j = i + n).
Proof.
  unfold np_norm_index. destruct (i <? 0) eqn:Hneg;
    destruct (_ && _) eqn:Hb; intros E; simplify_eq;
    apply andb_prop in Hb as [H1 H2]; lia.
Qed.

Lemma np_norm_index_nonneg n i j :
  0 <= i -> np_norm_index n i = Some j -> i < n /\ j = Z.to_nat i.
Proof.
  unfold np_norm_index. intros Hi.
  destruct (i <? 0) eqn:Hneg; [lia|].
  destruct (_ && _) eqn:Hb; intros [= <-].
  apply andb_prop in Hb as [H1 H2]. lia.
Qed.

Lemma np_norm_index_in_range n i :
  0 <= i < n -> np_norm_index n i = Some (Z.to_nat i).
Proof.
  intros Hi. unfold np_norm_index.
  destruct (i <? 0) eqn:Hneg; [lia|].
  destruct (_ && _) eqn:Hb; [done|].
  apply andb_false_iff in Hb. lia.
Qed.

Lemma np_setitem_Ok {A} (arr : list A) i x arr' :
  0 <= i -> np_setitem arr i x = Ok arr' ->
  i < len arr /\ arr' = <[Z.to_nat i := x]> arr.
Proof.
  unfold np_setitem, len. intros Hi.
  destruct (np_norm_index _ i) as [j|] eqn:E; [|discriminate].
  apply np_norm_index_nonneg in E as [? Hj]; [|done].
  intros [= <-]. by subst j.
Qed.

Lemma np_index_Ok {A} (arr : list A) i x :
  np_index arr i = Ok x ->
  exists j, arr !! j = Some x /\ (Z.of_nat j = i \/ Z.of_nat j = i + len arr).
Proof.
  unfold np_index, len.
  destruct (np_norm_index _ i) as [j|] eqn:E; [|discriminate].
  destruct (arr !! j) as [y|] eqn:El; [|discriminate].
  intros [= <-]. apply np_norm_index_Some in E as [_ E]. eauto.
Qed.

Lemma np_index_in_range {A} (arr : list A) i x :
  0 <= i < len arr -> np_index arr i = Ok x -> arr !! Z.to_nat i = Some x.
Proof.
  unfold np_index, len. intros Hi.
  rewrite np_norm_index_in_range by done.
  destruct (arr !! Z.to_nat i); [|discriminate]. by intros [= ->].
Qed.

Lemma np_index_Raise {A} (arr : list A) i e :
  np_index arr i = Raise e -> e = IndexError.
Proof.
  unfold np_index. destruct (np_norm_index _ i) as [j|]; [|by intros [= <-]].
  destruct (arr !! j); [discriminate | by intros [= <-]].
Qed.

Lemma np_index_ge {A} (arr : list A) i : len arr <= i -> np_index arr i = Raise IndexError.
Proof.
  unfold np_index, len, np_norm_index. intros Hi.
  destruct (i <? 0) eqn:Hneg; [lia|].
  destruct (_ && _) eqn:Hb; [|done].
  apply andb_prop in Hb as [H1 H2]. lia.
Qed.

Lemma rmapM_length {A B} (f : A -> result B) l l' :
  rmapM f l = Ok l' -> length l' = length l.
Proof.
  revert l'. induction l as [|a l IH]; simpl; intros l' E.
  - by injection E as <-.
  - apply rbind_Ok in E as (b & _ & E).
    apply rbind_Ok in E as (bs & E1 & E). injection E as <-.
    simpl. f_equal. auto.
Qed.

(** ** Edges (the function [edge] and Python sets of its values) *)

Lemma edge_comm a b : edge a b = edge b a.
Proof. unfold edge. f_equal; lia. Qed.

Lemma edge_canonical a b : (edge a b).1 <= (edge a b).2.
Proof. unfold edge. simpl. lia. Qed.

Lemma edge_set_insert_twice (external_edges : gset (Z * Z)) a b :
  {[edge a b]} ∪ ({[edge b a]} ∪ external_edges) = {[edge a b]} ∪ external_edges.
Proof. by rewrite (edge_comm b a), (assoc_L (∪)), (idemp_L (∪)). Qed.

Lemma edge_set_contains (external_edges : gset (Z * Z)) a b :
  bool_decide (edge a b ∈ {[edge b a]} ∪ external_edges) = true.
Proof. apply bool_decide_eq_true. rewrite (edge_comm b a). set_solver. Qed.

(** * The numeric routines on the worked meshes *)

Lemma planar_earcut_ok mirror : earcut_ok (H := planar mirror).
Proof.
  intros ring new_tris E. simpl in E. unfold planar_earcut in E.
  destruct (coincident ring); [injection E as <-; constructor|].
  destruct (convex_ring ring) as [ccw|]; [|discriminate].
  unfold len.
  destruct (length ring) as [|[|[|[|[|[|n]]]]]]; try discriminate E;
    destruct (xorb ccw (mirror ring)); injection E as <-;
    repeat (constructor; [split; [by vm_compute | by vm_compute]|]);
    constructor.
Qed.

(** The rings of a worked mesh, one face after the other. *)
Ltac rings_of_mesh Hring :=
  let Hin := fresh "Hin" in
  let Hn3 := fresh "Hn3" in
  let pv := fresh "poly_verts" in
  let Et := fresh "Et" in
  destruct Hring as (Hin & Hn3 & pv & Et & ->);
  repeat (apply elem_of_cons in Hin as [->|Hin];
          [try (exfalso; apply Hn3; reflexivity);
           vm_compute in Et; injection Et as <-|]);
  [..|by apply elem_of_nil in Hin].

Ltac face_ok_of_mesh :=
  repeat (constructor; [split; [compute_done|];
    let v := fresh "v" in let Hv := fresh "Hv" in
    intros v Hv;
    repeat (apply elem_of_cons in Hv as [->|Hv]; [by vm_compute|]);
    by apply elem_of_nil in Hv|]);
  constructor.

Lemma planar_earcut_convex mirror ring ccw :
  coincident ring = false -> convex_ring ring = Some ccw ->
  @project_earcut (planar mirror) ring
  = earcut_convex (xorb ccw (mirror ring)) (length ring).
Proof. intros Hc Hv. simpl. unfold planar_earcut. by rewrite Hc, Hv. Qed.

Ltac planar_ring_total k :=
  rewrite (planar_earcut_convex _ _ true); [|vm_compute; reflexivity..];
  match goal with |- context [xorb true (?m ?r)] => destruct (m r) end;
  eexists _, k; (split; [reflexivity|]);
  (split; [reflexivity|]); (split; [simpl; lia|]);
  repeat (constructor; [by vm_compute|]); constructor.

Ltac planar_ring_exact :=
  rewrite (planar_earcut_convex _ _ true); [|vm_compute; reflexivity..];
  match goal with |- context [xorb true (?m ?r)] => destruct (m r) end;
  eexists; (split; [reflexivity|]); (split; [reflexivity|]);
  repeat (constructor; [by vm_compute|]); constructor.

Lemma float32_small (n : Z) : Z.abs n < 2 ^ 24 -> float32_value (n # 1).
Proof.
  intros Hn. exists n, 0. split; [done|]. split; [lia|].
  unfold Qeq. simpl. lia.
Qed.

Lemma square_float32 : Forall float32_vertex square.
Proof.
  repeat (constructor;
          [repeat split; apply float32_small; simpl; lia|]).
  constructor.
Qed.


(** ** The closures keep the loop invariant *)

Lemma add_vtx_Ok v q s i s' :
  0 <= vtx_idx s ->
  add_vtx v q s = Ok (i, s') ->
  i = vtx_idx s /\ vtx_idx s < len (vertex_nparr s)
  /\ s' = State (<[Z.to_nat (vtx_idx s) := set_interior v q]> (vertex_nparr s))
                (vtx_idx s + 1) (index_basetype s) (tri_nparr s) (tri_idx s)
                (internal_vertices s).
Proof.
  unfold add_vtx. intros Hi.
  destruct (np_setitem _ _ _) as [arr|e] eqn:E; [|discriminate].
  apply np_setitem_Ok in E as [Hlt ->]; [|done].
  intros [= <- <-]. split; [lia | done].
Qed.

Lemma add_tri_Ok t s i s' :
  0 <= tri_idx s ->
  add_tri t s = Ok (i, s') ->
  i = tri_idx s /\ tri_idx s < len (tri_nparr s)
  /\ s' = State (vertex_nparr s) (vtx_idx s) (index_basetype s)
                (<[Z.to_nat (tri_idx s) :=
                     (np_cast (index_basetype s) t.1.1,
                      np_cast (index_basetype s) t.1.2,
                      np_cast (index_basetype s) t.2)]> (tri_nparr s))
                (tri_idx s + 1) (internal_vertices s).
Proof.
  unfold add_tri. intros Hi. destruct t as [[a b] c].
  destruct (np_setitem _ _ _) as [arr|e] eqn:E; [|discriminate].
  apply np_setitem_Ok in E as [Hlt ->]; [|done].
  intros [= <- <-]. split; [lia | done].
Qed.

Lemma internalize_vtx_Ok v s i s' :
  0 <= vtx_idx s ->
  internalize_vtx v s = Ok (i, s') ->
  (internal_vertices s !! v = Some i /\ s' = s)
  \/ (internal_vertices s !! v = None /\ i = vtx_idx s
      /\ vtx_idx s < len (vertex_nparr s)
      /\ exists vert_data,
           np_index (vertex_nparr s) v = Ok vert_data
           /\ s' = State (<[Z.to_nat (vtx_idx s) := set_interior vert_data 1]>
                            (vertex_nparr s))
                         (vtx_idx s + 1) (index_basetype s) (tri_nparr s)
                         (tri_idx s) (<[v := vtx_idx s]> (internal_vertices s))).
Proof.
  unfold internalize_vtx. intros Hi.
  destruct (internal_vertices s !! v) as [idx|] eqn:Em.
  - intros [= <- <-]. by left.
  - intros (vert_data & s1 & [E1 ->]%lift_Ok & E2)%bind_Ok.
    apply bind_Ok in E2 as (new_idx & s2 & E2 & E3).
    apply add_vtx_Ok in E2 as (-> & Hlt & ->); [|done].
    injection E3 as <- <-. right. simpl. eauto 10.
Qed.

Lemma np_cast_in_dtype T v :
  in_dtype (select_index_basetype T) (np_cast (select_index_basetype T) v).
Proof.
  unfold in_dtype, select_index_basetype.
  destruct (T <? 30000); simpl; apply Z.mod_pos_bound; lia.
Qed.

Lemma np_cast_id bt v :
  in_dtype bt v -> (bt = UnsignedShort \/ bt = UnsignedInt) -> np_cast bt v = v.
Proof.
  unfold in_dtype. intros Hv [-> | ->]; simpl in *; apply Z.mod_small; lia.
Qed.

Lemma wf_add_tri n0 T t : hoare (wf n0 T) (add_tri t) (fun _ => wf n0 T).
Proof.
  intros s i s' Hwf E. destruct Hwf.
  apply add_tri_Ok in E as (-> & Hlt & ->); [|lia].
  unfold len in *. split; unfold len; simpl; try done; try lia.
  - by rewrite length_insert.
  - intros j t' Hj. rewrite list_lookup_insert_ne by lia. apply wf_ttail0. lia.
  - intros j a b c. destruct (decide (j = Z.to_nat (tri_idx s))) as [->|Hne].
    + rewrite list_lookup_insert_eq by lia.
      intros [= <- <- <-]. rewrite wf_dtype0.
      auto using np_cast_in_dtype.
    + rewrite list_lookup_insert_ne by done. apply wf_cells0.
Qed.

Lemma wf_internalize_vtx n0 T v :
  hoare (wf n0 T) (internalize_vtx v)
        (fun i s' => wf n0 T s' /\ internal_vertices s' !! v = Some i).
Proof.
  intros s i s' Hwf E. pose proof Hwf as Hwf'. destruct Hwf.
  apply internalize_vtx_Ok in E
    as [[Em ->] | (Em & -> & Hlt & vd & Evd & ->)]; [done | | lia].
  split; [|simpl; by rewrite lookup_insert_eq].
  unfold len in *. split; unfold len; simpl; try done; try lia.
  - by rewrite length_insert.
  - intros j r Hj. rewrite list_lookup_insert_ne by lia. apply wf_vtail0. lia.
  - intros k i. destruct (decide (k = v)) as [->|Hne].
    + rewrite lookup_insert_eq. intros [= <-]. split; [lia|].
      exists (set_interior vd 1). split; [|done].
      apply list_lookup_insert_eq. lia.
    + rewrite lookup_insert_ne by done. intros Hk.
      destruct (wf_map0 _ _ Hk) as (Hr & r & Er & Hint).
      split; [lia|]. exists r. split; [|done].
      rewrite list_lookup_insert_ne by lia. done.
  - intros k1 k2 i.
    destruct (decide (k1 = v)) as [->|Hne1], (decide (k2 = v)) as [->|Hne2];
      rewrite ?lookup_insert_eq, ?lookup_insert_ne by done; try done.
    + intros [= <-] Hk. apply wf_map0 in Hk as [? _]. lia.
    + intros Hk [= <-]. apply wf_map0 in Hk as [? _]. lia.
    + apply wf_inj0.
Qed.

Lemma wf_cond_internalize n0 T (b : bool) v :
  hoare (wf n0 T) (if b then internalize_vtx v else ret v) (fun _ => wf n0 T).
Proof.
  destruct b; [|apply hoare_ret].
  eapply hoare_weaken; [apply wf_internalize_vtx | done | by intros ?? [??]].
Qed.

Ltac hoare_lifts :=
  repeat (eapply hoare_bind; [apply hoare_lift | intros ?]).

Lemma wf_tri_body n0 T poly external_edges flip t :
  hoare (wf n0 T) (tri_body poly external_edges flip t) (fun _ => wf n0 T).
Proof.
  destruct t as [[a b] c]. unfold tri_body. hoare_lifts.
  destruct flip; hoare_lifts;
    (eapply hoare_bind; [apply wf_cond_internalize | intros ?]);
    (eapply hoare_bind; [apply wf_cond_internalize | intros ?]);
    (eapply hoare_bind; [apply wf_cond_internalize | intros ?]);
    (eapply hoare_bind; [apply wf_add_tri | intros ?]);
    apply hoare_ret.
Qed.

Lemma hoare_get (P : state -> Prop) : hoare P get (fun _ => P).
Proof. intros s a s' HP E. unfold get in E. by simplify_eq. Qed.

Lemma hoare_assert (P : state -> Prop) b : hoare P (assert b) (fun _ => P).
Proof. intros s a s' HP [_ ->]%assert_Ok. done. Qed.

Lemma wf_process_ngon `{Numerics} n0 T poly :
  hoare (wf n0 T) (process_ngon poly) (fun _ => wf n0 T).
Proof.
  unfold process_ngon.
  eapply hoare_bind; [apply hoare_lift | intros edges].
  eapply hoare_bind; [apply hoare_assert | intros ?].
  eapply hoare_bind; [apply hoare_get | intros s0].
  eapply hoare_bind; [apply hoare_lift | intros poly_verts].
  eapply hoare_bind; [apply hoare_lift | intros [[p0 p1] p2]].
  eapply hoare_bind; [apply hoare_lift | intros new_tris].
  eapply hoare_bind; [apply hoare_lift | intros geom_tri0].
  eapply hoare_bind; [apply hoare_lift | intros [[g0 g1] g2]].
  apply hoare_for_each. intros t _. apply wf_tri_body.
Qed.

Lemma wf_process_poly `{Numerics} n0 T poly :
  hoare (wf n0 T) (process_poly poly) (fun _ => wf n0 T).
Proof.
  assert (Htri : forall t, hoare (wf n0 T) (let* _ := add_tri t in ret tt)
                                 (fun _ => wf n0 T)).
  { intros t. eapply hoare_bind; [apply wf_add_tri | intros ?; apply hoare_ret]. }
  unfold process_poly.
  destruct poly as [|a [|b [|c [|d poly]]]];
    first [apply Htri | apply wf_process_ngon].
Qed.

(** ** The initial state *)

Lemma fill_xyz_replicate vertices (k : nat) :
  fill_xyz vertices (replicate (length vertices + k) zero_row)
  = map row_of_vertex vertices ++ replicate k zero_row.
Proof.
  induction vertices as [|v vs IH]; simpl; [done|].
  rewrite IH. done.
Qed.

Lemma init_vertex_nparr vertices faces :
  vertex_nparr (init_state vertices faces)
  = map row_of_vertex vertices ++ replicate (length vertices) zero_row.
Proof.
  simpl. unfold np_zeros, total_vertices, len.
  replace (Z.to_nat (Z.of_nat (length vertices) * 2))
    with (length vertices + length vertices)%nat by lia.
  apply fill_xyz_replicate.
Qed.

Lemma sum_len_nonneg (l : list (list Z)) : 0 <= sum (map len l).
Proof. induction l; simpl; unfold len in *; lia. Qed.

Lemma num_tris_nonneg faces : 0 <= num_tris faces.
Proof.
  unfold num_tris, num_large_faces, large_faces.
  pose proof (length_filter (fun x : list Z => 3 < len x) faces) as Hle.
  unfold len in *. lia.
Qed.

Lemma total_tris_nonneg faces : 0 <= total_tris faces.
Proof.
  unfold total_tris, num_interior_tris.
  pose proof (num_tris_nonneg faces).
  pose proof (sum_len_nonneg (large_faces faces)). lia.
Qed.

Lemma wf_init vertices faces :
  wf (len vertices) (total_tris faces) (init_state vertices faces).
Proof.
  pose proof (total_tris_nonneg faces) as HT.
  split; try rewrite init_vertex_nparr.
  - unfold len. rewrite length_app, length_map, length_replicate. lia.
  - simpl. unfold len. lia.
  - unfold len. lia.
  - simpl. unfold np_zeros, len. rewrite length_replicate. lia.
  - simpl. lia.
  - done.
  - simpl vtx_idx. unfold len. intros i r Hi.
    rewrite lookup_app_r by (rewrite length_map; lia).
    by intros [-> _]%lookup_replicate.
  - simpl. unfold np_zeros. by intros j t _ [-> _]%lookup_replicate.
  - simpl. unfold np_zeros. intros j a b c [E _]%lookup_replicate.
    simplify_eq. unfold in_dtype, select_index_basetype.
    destruct (_ <? _); simpl; lia.
  - simpl. intros k i. by rewrite lookup_empty.
  - simpl. intros k1 k2 i. by rewrite lookup_empty.
Qed.

Lemma PlyMesh_run_Ok `{Numerics} vertices faces s :
  PlyMesh_run vertices faces = Ok s ->
  for_each faces process_poly (init_state vertices faces) = Ok (tt, s).
Proof.
  unfold PlyMesh_run.
  destruct (for_each _ _ _) as [[[] s1]|e]; [by intros [= ->] | discriminate].
Qed.

Lemma wf_faces `{Numerics} n0 T faces :
  hoare (wf n0 T) (for_each faces process_poly) (fun _ => wf n0 T).
Proof. apply hoare_for_each. intros poly _. apply wf_process_poly. Qed.

Lemma wf_PlyMesh_run `{Numerics} vertices faces s :
  PlyMesh_run vertices faces = Ok s -> wf (len vertices) (total_tris faces) s.
Proof.
  intros E%PlyMesh_run_Ok. eapply wf_faces; [apply wf_init | exact E].
Qed.

(** ** Faces that cannot be processed *)

Lemma bind_lift_Ok {A B} (a : A) (k : A -> M B) s :
  bind (lift (Ok a)) k s = k a s.
Proof. reflexivity. Qed.

Lemma bind_lift_Raise {A B} e (k : A -> M B) s :
  bind (lift (Raise e)) k s = Raise e.
Proof. reflexivity. Qed.

Lemma bind_assert_true {B} (k : unit -> M B) s : bind (assert true) k s = k tt s.
Proof. reflexivity. Qed.

Lemma bind_assert_false {B} (k : unit -> M B) s :
  bind (assert false) k s = Raise AssertionError.
Proof. reflexivity. Qed.

Lemma bind_get {B} (k : state -> M B) s : bind get k s = k s s.
Proof. reflexivity. Qed.

Lemma process_ngon_empty `{Numerics} s : process_ngon [] s = Raise RuntimeError.
Proof. reflexivity. Qed.

Lemma process_ngon_assertion `{Numerics} poly edges s :
  edgeIter poly = Ok edges ->
  size (list_to_set edges : gset (Z * Z)) <> length poly ->
  process_ngon poly s = Raise AssertionError.
Proof.
  intros E Hne. unfold process_ngon. rewrite E, bind_lift_Ok.
  rewrite bool_decide_eq_false_2 by done. apply bind_assert_false.
Qed.

Lemma process_ngon_pair `{Numerics} a b s :
  process_ngon [a; b] s = Raise AssertionError.
Proof.
  apply (process_ngon_assertion _ [edge a b; edge b a]); [done|].
  rewrite (edge_comm b a). cbn [list_to_set length].
  rewrite union_empty_r_L, (idemp_L (∪)), size_singleton. lia.
Qed.

Lemma process_ngon_single `{Numerics} a s :
  process_ngon [a] s = Raise IndexError.
Proof.
  unfold process_ngon. cbn [edgeIter edgeIter_loop].
  rewrite bind_lift_Ok. cbn [list_to_set length].
  rewrite union_empty_r_L, size_singleton.
  rewrite bool_decide_eq_true_2 by done.
  rewrite bind_assert_true, bind_get.
  unfold np_take. cbn [rmapM].
  destruct (np_index (vertex_nparr s) a) as [r|e] eqn:E.
  - reflexivity.
  - apply np_index_Raise in E as ->. reflexivity.
Qed.

Lemma process_poly_short `{Numerics} poly s :
  (length poly < 3)%nat -> exists e, process_poly poly s = Raise e.
Proof.
  destruct poly as [|a [|b [|c poly]]]; simpl; intros Hl; try lia.
  - eauto using process_ngon_empty.
  - eauto using process_ngon_single.
  - eauto using process_ngon_pair.
Qed.

Lemma for_each_Ok_all `{Numerics} faces s s' :
  for_each faces process_poly s = Ok (tt, s') ->
  Forall (fun poly => 3 <= len poly) faces.
Proof.
  revert s. induction faces as [|poly faces IH]; intros s E; [done|].
  simpl in E. apply bind_Ok in E as ([] & s1 & E1 & E2).
  constructor; [|eauto].
  destruct (decide (length poly < 3)%nat) as [Hs|Hs]; [|unfold len; lia].
  destruct (process_poly_short poly s Hs) as [e He]. congruence.
Qed.

Lemma counts_agree faces :
  Forall (fun poly => 3 <= len poly) faces ->
  num_tris faces = numTriFaces faces
  /\ num_interior_tris faces = numNgonVerts faces.
Proof.
  intros Hall. split; [|done].
  unfold num_tris, num_large_faces, large_faces, numTriFaces.
  induction Hall as [|poly faces Hp Hall IH]; [done|].
  rewrite !filter_cons. unfold len in *.
  destruct (decide (3 < Z.of_nat (length poly))),
           (decide (Z.of_nat (length poly) = 3)); simpl length; lia.
Qed.

(** ** Claims *)

(** C3 (edge-set operations never fail).  The class [EdgeDict] is the
    edge set with the three operations; each of its methods calls the
    bare name [_key], which is bound nowhere at module level, so every
    operation raises NameError whatever the indices are. *)
Theorem EdgeDict_operations_raise (self : EdgeDict.t) (a b idx : Z) :
  EdgeDict.addEdge self a b idx = Raise (NameError "_key")
  /\ EdgeDict.hasEdge self a b = Raise (NameError "_key")
  /\ EdgeDict.getEdge self a b = Raise (NameError "_key").
Proof. repeat split. Qed.

(** C4 (fill never exceeds the pre-computed bounds).  After any number
    of faces has been processed, the vertex write cursor is at most
    [2 * len vertices] and the triangle write cursor at most
    [num_tris + num_interior_tris]. *)
Theorem fill_within_bounds `{Numerics} vertices pre post s :
  for_each pre process_poly (init_state vertices (pre ++ post)) = Ok (tt, s) ->
  vtx_idx s <= 2 * len vertices
  /\ tri_idx s <= num_tris (pre ++ post) + num_interior_tris (pre ++ post).
Proof.
  intros E.
  assert (wf (len vertices) (total_tris (pre ++ post)) s) as Hwf.
  { eapply wf_faces; [apply wf_init | exact E]. }
  destruct Hwf. unfold total_tris in *. lia.
Qed.

Lemma fill_within_bounds_witness :
  exists s,
    for_each one_quad (process_poly (H := fan_numerics (Finite 1)))
      (init_state (replicate 4 origin) (one_quad ++ [])) = Ok (tt, s)
    /\ vtx_idx s <= 2 * len (replicate 4 origin)
    /\ tri_idx s <= num_tris (one_quad ++ []) + num_interior_tris (one_quad ++ []).
Proof.
  assert (is_ok (for_each one_quad (process_poly (H := fan_numerics (Finite 1)))
                   (init_state (replicate 4 origin) (one_quad ++ []))) = true)
    as Hok by (vm_compute; reflexivity).
  destruct (for_each _ _ _) as [[[] s]|e] eqn:E; [|discriminate Hok].
  exists s. split; [reflexivity|].
  exact (fill_within_bounds (H := fan_numerics (Finite 1)) _ _ _ _ E).
Defined.

(** A triangular face whose indices are values of the index dtype is
    written to the pool as it is, and nothing else changes. *)
Lemma triangle_face_passthrough `{Numerics} n0 T a b c s u s' :
  wf n0 T s ->
  in_dtype (index_basetype s) a -> in_dtype (index_basetype s) b ->
  in_dtype (index_basetype s) c ->
  process_poly [a; b; c] s = Ok (u, s') ->
  tri_nparr s' !! Z.to_nat (tri_idx s) = Some (a, b, c)
  /\ tri_idx s' = tri_idx s + 1
  /\ vertex_nparr s' = vertex_nparr s /\ vtx_idx s' = vtx_idx s
  /\ internal_vertices s' = internal_vertices s.
Proof.
  intros Hwf Ha Hb Hc E. simpl in E.
  apply bind_Ok in E as (row & s1 & E & [_ ->]%ret_Ok).
  pose proof (wf_tidx _ _ _ Hwf). pose proof (wf_dtype _ _ _ Hwf) as Hdt.
  apply add_tri_Ok in E as (-> & Hlt & ->); [|lia]. simpl.
  assert (index_basetype s = UnsignedShort \/ index_basetype s = UnsignedInt)
    as Hu by (rewrite Hdt; unfold select_index_basetype; destruct (_ <? _); auto).
  rewrite !np_cast_id by done.
  split; [|done]. apply list_lookup_insert_eq. unfold len in Hlt. lia.
Qed.

(** C7 (triangular faces pass through unmodified).  With 70000 input
    vertices and the single face [0, 1, 69999] the index pool is 16 bits
    wide and holds [(0, 1, 4463)]. *)
Theorem triangle_index_truncated `{Numerics} vertices :
  rmap tri_nparr (PlyMesh_run vertices [[0; 1; 69999]]) = Ok [(0, 1, 4463)].
Proof. reflexivity. Qed.

(** C8 (index width chosen once from the triangle count).  The dtype of
    the index pool is fixed when the pool is created, before any row is
    written: unsigned 16-bit below 30000 triangles, unsigned 32-bit
    otherwise; it is the dtype of the finished pool and of the index
    attribute, and every cell of the pool is a value of that type. *)
Theorem index_width_selected_once `{Numerics} vertices faces s :
  PlyMesh_run vertices faces = Ok s ->
  index_basetype (init_state vertices faces)
    = (if total_tris faces <? 30000 then UnsignedShort else UnsignedInt)
  /\ tri_idx (init_state vertices faces) = 0
  /\ index_basetype s = index_basetype (init_state vertices faces)
  /\ vertexBaseType (indexAttr (build_entity faces s)) = index_basetype s
  /\ forall (j : nat) a b c,
       tri_nparr s !! j = Some (a, b, c) ->
       in_dtype (index_basetype s) a /\ in_dtype (index_basetype s) b
       /\ in_dtype (index_basetype s) c.
Proof.
  intros Hwf%wf_PlyMesh_run. destruct Hwf.
  split; [done|]. split; [done|]. split; [done|]. split; [done|].
  exact wf_cells0.
Qed.

Lemma index_width_selected_once_witness :
  exists s,
    PlyMesh_run (H := fan_numerics (Finite 1)) (replicate 4 origin) one_quad = Ok s
    /\ index_basetype s = UnsignedShort.
Proof.
  assert (is_ok (PlyMesh_run (H := fan_numerics (Finite 1))
                   (replicate 4 origin) one_quad) = true)
    as Hok by (vm_compute; reflexivity).
  destruct (PlyMesh_run _ _) as [s|e] eqn:E; [|discriminate Hok].
  exists s. split; [reflexivity|].
  destruct (index_width_selected_once (H := fan_numerics (Finite 1)) _ _ _ E)
    as (E0 & _ & -> & _).
  exact E0.
Defined.

(** C10 (buffers are sized and counted at the upper bounds).  The
    vertex attributes count [2 * len vertices] rows and the index
    attribute [3 * (numTriFaces + numNgonVerts)] cells, whatever was
    filled; every vertex row from the vertex cursor on is all zero and
    every index row from the triangle cursor on is [(0, 0, 0)]. *)
Theorem buffers_at_upper_bounds `{Numerics} vertices faces m :
  PlyMesh_init vertices faces = Ok m ->
  exists s,
    PlyMesh_run vertices faces = Ok s
    /\ count (positionAttr m) = 2 * len vertices
    /\ count (interiorAttr m) = 2 * len vertices
    /\ len (qvbytes m) = 2 * len vertices
    /\ count (indexAttr m) = 3 * (numTriFaces faces + numNgonVerts faces)
    /\ len (qibytes m) = numTriFaces faces + numNgonVerts faces
    /\ (forall i : nat, vtx_idx s <= Z.of_nat i < 2 * len vertices ->
          qvbytes m !! i = Some zero_row)
    /\ (forall j : nat,
          tri_idx s <= Z.of_nat j < numTriFaces faces + numNgonVerts faces ->
          qibytes m !! j = Some (0, 0, 0)).
Proof.
  unfold PlyMesh_init. intros (s & E & ->)%rmap_Ok. exists s.
  pose proof (wf_PlyMesh_run _ _ _ E) as Hwf.
  pose proof (PlyMesh_run_Ok _ _ _ E) as Hall%for_each_Ok_all.
  destruct (counts_agree _ Hall) as [Hn1 Hn2].
  destruct Hwf. unfold total_tris in *. rewrite Hn1, Hn2 in *.
  simpl. repeat (split; [done|]).
  split; [unfold total_tris; by rewrite Hn1, Hn2|]. split; [done|]. split.
  - intros i Hi. unfold len in *.
    destruct (lookup_lt_is_Some_2 (vertex_nparr s) i) as [r Hr]; [lia|].
    rewrite Hr. f_equal. eapply wf_vtail0; [|exact Hr]. lia.
  - intros j Hj. unfold len in *.
    destruct (lookup_lt_is_Some_2 (tri_nparr s) j) as [t Ht]; [lia|].
    rewrite Ht. f_equal. eapply wf_ttail0; [|exact Ht]. lia.
Qed.

Lemma buffers_at_upper_bounds_witness :
  exists m s,
    PlyMesh_init (H := fan1) (replicate 4 origin) one_quad = Ok m
    /\ PlyMesh_run (H := fan1) (replicate 4 origin) one_quad = Ok s
    /\ count (indexAttr m) = 3 * (numTriFaces one_quad + numNgonVerts one_quad)
    /\ qibytes m !! 3%nat = Some (0, 0, 0).
Proof.
  assert (is_ok (PlyMesh_init (H := fan1) (replicate 4 origin) one_quad) = true)
    as Hok by (vm_compute; reflexivity).
  assert (rmap tri_idx (PlyMesh_run (H := fan1) (replicate 4 origin) one_quad)
          = Ok 2) as Hidx by (vm_compute; reflexivity).
  destruct (PlyMesh_init _ _) as [m|e] eqn:E; [|discriminate Hok].
  destruct (buffers_at_upper_bounds (H := fan1) _ _ _ E)
    as (s & Es & _ & _ & _ & Hc & _ & _ & Hz).
  exists m, s. split; [reflexivity|]. split; [exact Es|]. split; [exact Hc|].
  apply Hz. rewrite Es in Hidx. injection Hidx as ->.
  replace (numTriFaces one_quad + numNgonVerts one_quad) with 4
    by (vm_compute; reflexivity).
  lia.
Defined.

(** ** Entries of the internalization dict are never removed *)

Lemma keeps_add_tri V i t : hoare (keeps V i) (add_tri t) (fun _ => keeps V i).
Proof.
  intros s a s' Hk E. unfold add_tri in E. destruct t as [[x1 x2] x3].
  destruct (np_setitem _ _ _); [|discriminate]. by simplify_eq.
Qed.

Lemma keeps_internalize_vtx V i v :
  hoare (keeps V i) (internalize_vtx v) (fun _ => keeps V i).
Proof.
  intros s a s' Hk E. unfold internalize_vtx in E.
  destruct (internal_vertices s !! v) as [idx|] eqn:Em; [by simplify_eq|].
  apply bind_Ok in E as (vd & s1 & [_ ->]%lift_Ok & E).
  apply bind_Ok in E as (new_idx & s2 & E2 & E3).
  unfold add_vtx in E2. destruct (np_setitem _ _ _); [|discriminate].
  simplify_eq. unfold keeps in *. simpl.
  rewrite lookup_insert_ne; [done|]. intros ->. congruence.
Qed.








(** ** Rejected faces *)

Lemma process_poly_ngon `{Numerics} poly :
  length poly <> 3%nat -> process_poly poly = process_ngon poly.
Proof. by destruct poly as [|a [|b [|c [|d poly]]]]. Qed.

Lemma process_poly_non_simple `{Numerics} poly s :
  length poly <> 3%nat ->
  boundary_edge_count poly <> length poly ->
  process_poly poly s = Raise AssertionError.
Proof.
  intros Hl Hc. rewrite process_poly_ngon by done.
  unfold boundary_edge_count in Hc.
  destruct (edgeIter poly) as [edges|e] eqn:E.
  - by apply (process_ngon_assertion poly edges).
  - destruct poly; [done | discriminate].
Qed.

Lemma process_poly_offending `{Numerics} poly s :
  offending poly -> exists e, process_poly poly s = Raise e.
Proof.
  intros [Hl [Hc | Hs]].
  - eauto using process_poly_non_simple.
  - by apply process_poly_short.
Qed.

Lemma for_each_offending `{Numerics} faces poly s :
  poly ∈ faces -> offending poly ->
  exists e, for_each faces process_poly s = Raise e.
Proof.
  intros Hin Hoff. revert s.
  induction faces as [|p faces IH]; intros s; [by apply elem_of_nil in Hin|].
  simpl. unfold bind. destruct (process_poly p s) as [[[] s1]|e] eqn:E; [|eauto].
  apply elem_of_cons in Hin as [->|Hin]; [|by apply IH].
  destruct (process_poly_offending p s Hoff) as [e He]. congruence.
Qed.

(** C2, as amended.  A face that is not a triangle and whose distinct
    canonical boundary edges are not as many as its vertices, or that has
    fewer than three vertices, makes the conversion raise: no mesh is
    returned.  When the faces before it were processed and its edge count
    is off, the exception is the bare AssertionError of the [assert]. *)
Theorem offending_face_aborts `{Numerics} vertices faces poly :
  poly ∈ faces -> offending poly ->
  (exists e, PlyMesh_init vertices faces = Raise e)
  /\ forall pre post s,
       faces = pre ++ poly :: post ->
       for_each pre process_poly (init_state vertices faces) = Ok (tt, s) ->
       boundary_edge_count poly <> length poly ->
       PlyMesh_init vertices faces = Raise AssertionError.
Proof.
  intros Hin Hoff. split.
  - destruct (for_each_offending faces poly (init_state vertices faces) Hin Hoff)
      as [e He].
    exists e. unfold PlyMesh_init, PlyMesh_run. by rewrite He.
  - intros pre post s -> Epre Hc.
    unfold PlyMesh_init, PlyMesh_run. rewrite for_each_app, Epre.
    simpl. unfold bind.
    rewrite process_poly_non_simple; [done | apply Hoff | done].
Qed.

Lemma offending_face_aborts_witness :
  PlyMesh_init (H := fan1) (replicate 4 origin) [[0; 1; 2]; [0; 1; 0; 2]]
  = Raise AssertionError.
Proof.
  assert (boundary_edge_count [0; 1; 0; 2] <> length [0; 1; 0; 2]) as Hc
    by (vm_compute; discriminate).
  assert (offending [0; 1; 0; 2]) as Hoff
    by (split; [simpl; discriminate | by left]).
  assert ([0; 1; 0; 2] ∈ [[0; 1; 2]; [0; 1; 0; 2]]) as Hin
    by (apply elem_of_cons; right; apply elem_of_cons; by left).
  assert (is_ok (for_each [[0; 1; 2]] (process_poly (H := fan1))
                   (init_state (replicate 4 origin) [[0; 1; 2]; [0; 1; 0; 2]]))
          = true) as Hok by (vm_compute; reflexivity).
  destruct (for_each [[0; 1; 2]] _ _) as [[[] s]|e] eqn:E; [|discriminate Hok].
  exact (proj2 (offending_face_aborts (H := fan1) (replicate 4 origin) _ _
                  Hin Hoff) [[0; 1; 2]] [] s eq_refl E Hc).
Defined.

(** C2, as stated, fails.  The face [0,0,1] has two distinct boundary
    edges and three vertices, yet the conversion returns a mesh whose
    index pool holds it.  And the exception raised for a non-simple
    n-gon is the same value whichever face it was: face 0 with four
    vertices, or face 1 with six. *)
Lemma degenerate_triangle_accepted :
  boundary_edge_count [0; 0; 1] = 2%nat
  /\ rmap qibytes (PlyMesh_init (H := fan1) (replicate 2 origin) [[0; 0; 1]])
     = Ok [(0, 0, 1)]
  /\ PlyMesh_init (H := fan1) (replicate 4 origin) [[0; 1; 0; 2]]
     = Raise AssertionError
  /\ PlyMesh_init (H := fan1) (replicate 4 origin)
       [[0; 1; 2]; [0; 1; 2; 0; 3; 2]]
     = Raise AssertionError.
Proof. repeat split; vm_compute; reflexivity. Qed.

(** ** The winding decision *)

Lemma bind_ext {A B} (m : M A) (k1 k2 : A -> M B) s :
  (forall a s', k1 a s' = k2 a s') -> bind m k1 s = bind m k2 s.
Proof. intros Hk. unfold bind. destruct (m s) as [[a s']|e]; [apply Hk | done]. Qed.

Lemma for_each_ext {A} (l : list A) (f g : A -> M unit) s :
  (forall a s', f a s' = g a s') -> for_each l f s = for_each l g s.
Proof.
  intros Hfg. revert s. induction l as [|a l IH]; intros s; simpl; [done|].
  unfold bind. rewrite Hfg. destruct (g a s) as [[u s']|e]; [apply IH | done].
Qed.

Lemma for_each_map {A B} (h : A -> B) (l : list A) (f : B -> M unit) s :
  for_each (map h l) f s = for_each l (fun a => f (h a)) s.
Proof.
  revert s. induction l as [|a l IH]; intros s; simpl; [done|].
  apply bind_ext. intros _ s'. apply IH.
Qed.

Lemma poly_item_Raise poly a e : poly_item poly a = Raise e -> e = IndexError.
Proof.
  destruct a as [i|]; simpl; [|discriminate]. unfold rmap, rbind.
  destruct (np_index poly i) eqn:E; [discriminate|].
  intros [= <-]. by apply np_index_Raise in E.
Qed.

Lemma tri_body_flip poly external_edges t s :
  tri_body poly external_edges true t s
  = tri_body poly external_edges false (swap23 t) s.
Proof.
  destruct t as [[a b] c]. unfold tri_body, swap23, bind, lift.
  destruct (poly_item poly a) as [ia|ea] eqn:Ea; [|done].
  destruct (poly_item poly b) as [ib|eb] eqn:Eb,
           (poly_item poly c) as [ic|ec] eqn:Ec; try done.
  apply poly_item_Raise in Eb, Ec. by subst.
Qed.

Lemma WindingCorrector_loop poly external_edges flip groups s :
  for_each groups (tri_body poly external_edges flip) s
  = for_each (WindingCorrector flip groups)
      (tri_body poly external_edges false) s.
Proof.
  destruct flip; simpl; [|done].
  rewrite for_each_map. apply for_each_ext. intros t s'. apply tri_body_flip.
Qed.

Lemma flip_of_Finite q :
  flip_of (Finite q) = true
  <-> ~ (Qabs (q - 1) <= 10000001 # 100000000)%Q.
Proof.
  unfold flip_of, np_isclose. rewrite negb_true_iff, <- not_true_iff_false.
  rewrite Qle_bool_iff.
  assert (np_atol + rtol_1e_1 * Qabs 1 == 10000001 # 100000000)%Q as ->
    by reflexivity.
  done.
Qed.


(** ** Emitted triangles *)

Lemma extends_refl s : extends s s.
Proof. unfold extends. repeat split; auto; lia. Qed.

Lemma extends_trans s1 s2 s3 : extends s1 s2 -> extends s2 s3 -> extends s1 s3.
Proof.
  intros (Ha & Hb & Hc & Hd) (Ha' & Hb' & Hc' & Hd'). unfold extends.
  repeat split; [congruence | congruence | lia | auto].
Qed.

Lemma stands_for_extends s s' v i :
  extends s s' -> stands_for s v i -> stands_for s' v i.
Proof. intros (_ & _ & _ & Hm) [-> | Hi]; [by left | right; auto]. Qed.

Lemma tris_ok_extends s s' : extends s s' -> tris_ok s -> tris_ok s'.
Proof.
  intros (Ha & Hb & Hc & _) Ht j t Hj Hl. rewrite Ha in Hl. rewrite Hb in Hj.
  destruct (Ht j t Hj Hl) as [Hd Hbelow]. split; [done|].
  destruct t as [[a b] c]. simpl in *. lia.
Qed.

Lemma cond_internalize_spec n0 T (b : bool) v s i s' :
  wf n0 T s ->
  (if b then internalize_vtx v else ret v) s = Ok (i, s') ->
  wf n0 T s' /\ extends s s' /\ stands_for s' v i.
Proof.
  intros Hwf E. destruct b.
  - destruct (wf_internalize_vtx n0 T v s i s' Hwf E) as [Hwf' Hm].
    split; [done|]. split; [|by right].
    pose proof (wf_vidx _ _ _ Hwf). pose proof (wf_n0 _ _ _ Hwf).
    apply internalize_vtx_Ok in E
      as [[_ ->] | (Em & _ & _ & vd & _ & ->)]; [apply extends_refl | | lia].
    unfold extends. simpl. repeat split; [lia|].
    intros k j Hk. rewrite lookup_insert_ne; [done|]. intros ->. congruence.
  - apply ret_Ok in E as [-> ->].
    split; [done|]. split; [apply extends_refl | by left].
Qed.

Lemma stands_for_below n0 T s v i :
  wf n0 T s -> 0 <= v < n0 -> stands_for s v i -> 0 <= i < vtx_idx s.
Proof.
  intros Hwf Hv [-> | Hi].
  - pose proof (wf_vidx _ _ _ Hwf). lia.
  - destruct (wf_map _ _ _ Hwf _ _ Hi) as [? _]. lia.
Qed.

Lemma stands_for_distinct n0 T s v1 v2 i1 i2 :
  wf n0 T s -> 0 <= v1 < n0 -> 0 <= v2 < n0 -> v1 <> v2 ->
  stands_for s v1 i1 -> stands_for s v2 i2 -> i1 <> i2.
Proof.
  intros Hwf H1 H2 Hne [-> | Hi1] [-> | Hi2]; [done | | |].
  - destruct (wf_map _ _ _ Hwf _ _ Hi2) as [? _]. lia.
  - destruct (wf_map _ _ _ Hwf _ _ Hi1) as [? _]. lia.
  - intros ->. apply Hne. eapply wf_inj; eauto.
Qed.

Lemma tris_ok_add_tri n0 T t s i s' :
  2 * n0 <= 2 ^ (8 * _basetype_widths (select_index_basetype T)) ->
  wf n0 T s -> tris_ok s ->
  distinct3 t -> below3 (vtx_idx s) t ->
  add_tri t s = Ok (i, s') -> tris_ok s'.
Proof.
  intros Hw Hwf Ht Hd Hb E.
  pose proof (wf_tidx _ _ _ Hwf) as Htidx. pose proof (wf_vidx _ _ _ Hwf) as Hv.
  pose proof (wf_dtype _ _ _ Hwf) as Hdt. pose proof (wf_tlen _ _ _ Hwf) as Hlen.
  apply add_tri_Ok in E as (-> & Hlt & ->); [|lia].
  destruct t as [[a b] c]. simpl in Hd, Hb.
  assert (forall x, 0 <= x < vtx_idx s -> np_cast (index_basetype s) x = x) as Hc.
  { intros x Hx. apply np_cast_id.
    - unfold in_dtype. rewrite Hdt. lia.
    - rewrite Hdt. unfold select_index_basetype. destruct (_ <? _); auto. }
  intros j t. simpl. intros Hj.
  destruct (decide (j = Z.to_nat (tri_idx s))) as [->|Hne].
  - rewrite list_lookup_insert_eq by (unfold len in *; lia).
    intros [= <-]. rewrite !Hc by lia. simpl. done.
  - rewrite list_lookup_insert_ne by done. apply Ht. lia.
Qed.

Lemma as_int_Ok p v : as_int p = Ok v -> p = Some v.
Proof. destruct p; simpl; [by intros [= ->] | discriminate]. Qed.

Lemma poly_item_in_range n0 poly a v :
  face_ok n0 poly -> 0 <= a < len poly ->
  poly_item poly (Some a) = Ok (Some v) ->
  poly !! Z.to_nat a = Some v /\ 0 <= v < n0.
Proof.
  intros [_ Hrange] Ha E. simpl in E.
  apply rmap_Ok in E as (x & E & [= ->]).
  apply np_index_in_range in E; [|done].
  split; [done|]. apply Hrange. by eapply list_elem_of_lookup_2.
Qed.

Lemma tri_body_tris_ok n0 T poly external_edges flip t s u s' :
  2 * n0 <= 2 ^ (8 * _basetype_widths (select_index_basetype T)) ->
  face_ok n0 poly -> group_ok (len poly) t ->
  wf n0 T s /\ tris_ok s ->
  tri_body poly external_edges flip t s = Ok (u, s') ->
  wf n0 T s' /\ tris_ok s'.
Proof.
  intros Hw Hface Hg [Hwf Ht] E.
  destruct t as [[a b] c]. unfold tri_body in E.
  apply bind_Ok in E as (xa & ? & [Ea ->]%lift_Ok & E).
  apply bind_Ok in E as (xb & ? & [Eb ->]%lift_Ok & E).
  apply bind_Ok in E as (xc & ? & [Ec ->]%lift_Ok & E).
  assert (exists yb yc,
    ((yb = xb /\ yc = xc) \/ (yb = xc /\ yc = xb))
    /\ (let* edge_a := lift (edge_of xa yb) in
        let* edge_b := lift (edge_of yb yc) in
        let* edge_c := lift (edge_of yc xa) in
        let* idx_a := lift (as_int xa) in
        let* idx_b := lift (as_int yb) in
        let* idx_c := lift (as_int yc) in
        let* idx_a :=
          (if bool_decide (edge_a ∉ external_edges)
           then internalize_vtx idx_a else ret idx_a) in
        let* idx_b :=
          (if bool_decide (edge_b ∉ external_edges)
           then internalize_vtx idx_b else ret idx_b) in
        let* idx_c :=
          (if bool_decide (edge_c ∉ external_edges)
           then internalize_vtx idx_c else ret idx_c) in
        let* _ := add_tri (idx_a, idx_b, idx_c) in
        ret tt) s = Ok (u, s')) as (yb & yc & Hperm & E').
  { destruct flip; [exists xc, xb | exists xb, xc]; split; auto. }
  clear E. rename E' into E.
  apply bind_Ok in E as (edge_a & ? & [_ ->]%lift_Ok & E).
  apply bind_Ok in E as (edge_b & ? & [_ ->]%lift_Ok & E).
  apply bind_Ok in E as (edge_c & ? & [_ ->]%lift_Ok & E).
  apply bind_Ok in E as (va & ? & [Ha%as_int_Ok ->]%lift_Ok & E).
  apply bind_Ok in E as (wb & ? & [Hb%as_int_Ok ->]%lift_Ok & E).
  apply bind_Ok in E as (wc & ? & [Hc%as_int_Ok ->]%lift_Ok & E).
  apply bind_Ok in E as (ia & s1 & E1 & E).
  apply bind_Ok in E as (ib & s2 & E2 & E).
  apply bind_Ok in E as (ic & s3 & E3 & E).
  apply bind_Ok in E as (row & s4 & E4 & [_ ->]%ret_Ok).
  subst xa yb yc.
  (* the three values read from [poly] are different and in range *)
  assert (exists vb vc, xb = Some vb /\ xc = Some vc
            /\ ((wb = vb /\ wc = vc) \/ (wb = vc /\ wc = vb)))
    as (vb & vc & -> & -> & Hw').
  { destruct Hperm as [[<- <-] | [<- <-]]; eauto 10. }
  destruct a as [a|]; [|discriminate Ea].
  destruct b as [b|]; [|discriminate Eb].
  destruct c as [c|]; [|discriminate Ec].
  destruct Hg as [(Hra & Hrb & Hrc) (Hab & Hbc & Hac)].
  destruct (poly_item_in_range n0 poly a va Hface Hra Ea) as [La Hva].
  destruct (poly_item_in_range n0 poly b vb Hface Hrb Eb) as [Lb Hvb].
  destruct (poly_item_in_range n0 poly c vc Hface Hrc Ec) as [Lc Hvc].
  destruct Hface as [Hnd _].
  assert (va <> vb) as Nab.
  { intros ->. pose proof (NoDup_lookup _ _ _ _ Hnd La Lb). lia. }
  assert (vb <> vc) as Nbc.
  { intros ->. pose proof (NoDup_lookup _ _ _ _ Hnd Lb Lc). lia. }
  assert (va <> vc) as Nac.
  { intros ->. pose proof (NoDup_lookup _ _ _ _ Hnd La Lc). lia. }
  assert (0 <= wb < n0 /\ 0 <= wc < n0 /\ va <> wb /\ wb <> wc /\ va <> wc)
    as (Hwb & Hwc & Nab' & Nbc' & Nac').
  { destruct Hw' as [[-> ->] | [-> ->]]; repeat split; (done || lia). }
  (* the three conditional internalizations *)
  destruct (cond_internalize_spec _ _ _ _ _ _ _ Hwf E1) as (Hwf1 & X1 & R1).
  destruct (cond_internalize_spec _ _ _ _ _ _ _ Hwf1 E2) as (Hwf2 & X2 & R2).
  destruct (cond_internalize_spec _ _ _ _ _ _ _ Hwf2 E3) as (Hwf3 & X3 & R3).
  pose proof (stands_for_extends _ _ _ _ (extends_trans _ _ _ X2 X3) R1) as R1'.
  pose proof (stands_for_extends _ _ _ _ X3 R2) as R2'.
  assert (tris_ok s3) as Ht3.
  { eapply tris_ok_extends; [|exact Ht].
    eauto using extends_trans. }
  split; [by eapply wf_add_tri|].
  eapply (tris_ok_add_tri n0 T); [done | exact Hwf3 | exact Ht3 | | | exact E4].
  - simpl. split; [|split].
    + by apply (stands_for_distinct n0 T s3 va wb).
    + by apply (stands_for_distinct n0 T s3 wb wc).
    + by apply (stands_for_distinct n0 T s3 va wc).
  - simpl. split; [|split].
    + by apply (stands_for_below n0 T s3 va).
    + by apply (stands_for_below n0 T s3 wb).
    + by apply (stands_for_below n0 T s3 wc).
Qed.

Lemma process_ngon_tris_ok `{Numerics} n0 T poly s u s' :
  earcut_ok ->
  2 * n0 <= 2 ^ (8 * _basetype_widths (select_index_basetype T)) ->
  face_ok n0 poly ->
  wf n0 T s /\ tris_ok s ->
  process_ngon poly s = Ok (u, s') ->
  wf n0 T s' /\ tris_ok s'.
Proof.
  intros Hear Hw Hface HJ E. unfold process_ngon in E.
  apply bind_Ok in E as (edges & ? & [_ ->]%lift_Ok & E).
  apply bind_Ok in E as (? & ? & [_ ->]%assert_Ok & E).
  apply bind_Ok in E as (s0 & ? & Eg & E).
  unfold get in Eg. injection Eg as <- <-.
  apply bind_Ok in E as (poly_verts & ? & [Etake ->]%lift_Ok & E).
  apply bind_Ok in E as ([[p0 p1] p2] & ? & [_ ->]%lift_Ok & E).
  apply bind_Ok in E as (new_tris & ? & [Etris ->]%lift_Ok & E).
  apply bind_Ok in E as (geom_tri0 & ? & [_ ->]%lift_Ok & E).
  apply bind_Ok in E as ([[g0 g1] g2] & ? & [_ ->]%lift_Ok & E).
  apply Hear in Etris.
  assert (len (map xyz poly_verts) = len poly) as Hlen.
  { unfold len. rewrite length_map. f_equal. by eapply rmapM_length. }
  rewrite Hlen in Etris.
  eapply (hoare_for_each (fun s => wf n0 T s /\ tris_ok s)); [|exact HJ|exact E].
  intros t Hin s1 u1 s1' HJ1 E1.
  eapply tri_body_tris_ok; [exact Hw | exact Hface | | exact HJ1 | exact E1].
  by eapply Forall_forall in Etris.
Qed.

Lemma process_poly_tris_ok `{Numerics} n0 T poly s u s' :
  earcut_ok ->
  2 * n0 <= 2 ^ (8 * _basetype_widths (select_index_basetype T)) ->
  face_ok n0 poly ->
  wf n0 T s /\ tris_ok s ->
  process_poly poly s = Ok (u, s') ->
  wf n0 T s' /\ tris_ok s'.
Proof.
  intros Hear Hw Hface HJ E.
  destruct (decide (length poly = 3%nat)) as [Hl|Hl];
    [|rewrite process_poly_ngon in E by done; by eapply process_ngon_tris_ok].
  destruct poly as [|a [|b [|c [|d poly]]]]; try discriminate Hl.
  simpl in E. apply bind_Ok in E as (row & s1 & E & [_ ->]%ret_Ok).
  destruct HJ as [Hwf Ht]. split; [by eapply wf_add_tri|].
  destruct Hface as [Hnd Hrange].
  pose proof (wf_vidx _ _ _ Hwf) as Hv.
  assert (0 <= a < n0) as Ha by (apply Hrange, elem_of_cons; auto).
  assert (0 <= b < n0) as Hb
    by (apply Hrange, elem_of_cons; right; apply elem_of_cons; auto).
  assert (0 <= c < n0) as Hc
    by (apply Hrange; do 2 (apply elem_of_cons; right); apply elem_of_cons; auto).
  apply NoDup_cons in Hnd as [Hna Hnd]. apply NoDup_cons in Hnd as [Hnb _].
  apply not_elem_of_cons in Hna as [Hab Hac].
  apply not_elem_of_cons in Hac as [Hac _].
  apply not_elem_of_cons in Hnb as [Hbc _].
  eapply (tris_ok_add_tri n0 T); [done | exact Hwf | exact Ht | | | exact E].
  - by unfold distinct3.
  - simpl. lia.
Qed.

Lemma tris_ok_init vertices faces : tris_ok (init_state vertices faces).
Proof. intros j t Hj. simpl in Hj. lia. Qed.

(** C5, as amended.  On an input that meets the input contract (every
    face lists different vertices of the vertex array), with a
    triangulation routine that meets its contract (every triple names
    three different points of the ring), and when the index width can
    hold every pool index, each row of the index pool below the triangle
    write cursor has three pairwise distinct indices, each of them a
    filled slot of the vertex pool.  The rows from the cursor up to the
    pre-computed bound [total_tris] are [(0,0,0)], and they are handed
    over as well: the index buffer is the whole pool and the index
    attribute counts [3 * total_tris] cells. *)
Theorem emitted_triangles_proper `{Numerics} vertices faces s :
  earcut_ok ->
  Forall (face_ok (len vertices)) faces ->
  indices_fit vertices faces ->
  PlyMesh_run vertices faces = Ok s ->
  (forall (j : nat) t,
     Z.of_nat j < tri_idx s -> tri_nparr s !! j = Some t ->
     distinct3 t /\ below3 (vtx_idx s) t)
  /\ (forall (j : nat) t,
        tri_idx s <= Z.of_nat j -> tri_nparr s !! j = Some t -> t = (0, 0, 0))
  /\ len (tri_nparr s) = total_tris faces
  /\ exists m,
       PlyMesh_init vertices faces = Ok m
       /\ qibytes m = tri_nparr s
       /\ count (indexAttr m) = 3 * total_tris faces.
Proof.
  intros Hear Hfaces Hfit Erun. pose proof Erun as E%PlyMesh_run_Ok.
  assert (wf (len vertices) (total_tris faces) s /\ tris_ok s) as [Hwf Ht].
  { eapply (hoare_for_each
              (fun s => wf (len vertices) (total_tris faces) s /\ tris_ok s));
      [| |exact E].
    - intros poly Hin s1 u s1' HJ E1.
      eapply process_poly_tris_ok;
        [exact Hear | exact Hfit | | exact HJ | exact E1].
      by eapply Forall_forall in Hfaces.
    - split; [apply wf_init | apply tris_ok_init]. }
  split; [exact Ht|].
  split; [exact (wf_ttail _ _ _ Hwf)|].
  split; [exact (wf_tlen _ _ _ Hwf)|].
  exists (build_entity faces s). unfold PlyMesh_init. rewrite Erun.
  done.
Qed.

Lemma emitted_triangles_proper_witness :
  (exists s,
     PlyMesh_run (H := planar no_mirror) square one_quad = Ok s
     /\ tri_nparr s !! 1%nat = Some (0, 1, 5)
     /\ distinct3 (0, 1, 5) /\ below3 (vtx_idx s) (0, 1, 5)
     /\ tri_nparr s !! 2%nat = Some (0, 0, 0))
  /\ (exists s,
        PlyMesh_run (H := planar all_mirror) square one_quad = Ok s
        /\ tri_nparr s !! 1%nat = Some (5, 1, 2)
        /\ distinct3 (5, 1, 2) /\ below3 (vtx_idx s) (5, 1, 2)
        /\ tri_nparr s !! 2%nat = Some (0, 0, 0)).
Proof.
  assert (Forall (face_ok (len square)) one_quad) as Hfo by face_ok_of_mesh.
  assert (indices_fit square one_quad) as Hfit
    by (unfold indices_fit; vm_compute; discriminate).
  split.
  - assert (rmap (fun s => (tri_idx s, tri_nparr s !! 1%nat,
                            tri_nparr s !! 2%nat))
              (PlyMesh_run (H := planar no_mirror) square one_quad)
            = Ok (2, Some (0, 1, 5), Some (0, 0, 0)))
      as Hrun by (vm_compute; reflexivity).
    destruct (PlyMesh_run _ _) as [s|e] eqn:E; [|discriminate Hrun].
    simpl in Hrun. injection Hrun as Hidx Hrow Hrow2.
    exists s. split; [reflexivity|]. split; [exact Hrow|].
    destruct (emitted_triangles_proper (H := planar no_mirror) square
                one_quad s (planar_earcut_ok no_mirror) Hfo Hfit E)
      as (Hbelow & _).
    destruct (Hbelow 1%nat _ ltac:(lia) Hrow) as [Hd Hb].
    split; [exact Hd|]. split; [exact Hb | exact Hrow2].
  - assert (rmap (fun s => (tri_idx s, tri_nparr s !! 1%nat,
                            tri_nparr s !! 2%nat))
              (PlyMesh_run (H := planar all_mirror) square one_quad)
            = Ok (2, Some (5, 1, 2), Some (0, 0, 0)))
      as Hrun by (vm_compute; reflexivity).
    destruct (PlyMesh_run _ _) as [s|e] eqn:E; [|discriminate Hrun].
    simpl in Hrun. injection Hrun as Hidx Hrow Hrow2.
    exists s. split; [reflexivity|]. split; [exact Hrow|].
    destruct (emitted_triangles_proper (H := planar all_mirror) square
                one_quad s (planar_earcut_ok all_mirror) Hfo Hfit E)
      as (Hbelow & _).
    destruct (Hbelow 1%nat _ ltac:(lia) Hrow) as [Hd Hb].
    split; [exact Hd|]. split; [exact Hb | exact Hrow2].
Defined.

(** C5, as stated, fails.  For the unit square as a single face the
    triangulation gives two triangles, the index attribute counts 12
    cells, four triangles, and the pool it reads holds the two triangles
    and then two rows [(0,0,0)], whose three indices are equal.  The two
    triangles are [(2,3,4)], [(0,1,5)] when the projection keeps the
    orientation of the ring and [(4,3,0)], [(5,1,2)] when it mirrors it;
    the rows [(0,0,0)] are there in both cases. *)
Lemma zero_triangles_in_index_pool :
  rmap (fun m => (count (indexAttr m), qibytes m))
    (PlyMesh_init (H := planar no_mirror) square one_quad)
  = Ok (12, [(2, 3, 4); (0, 1, 5); (0, 0, 0); (0, 0, 0)])
  /\ rmap (fun m => (count (indexAttr m), qibytes m))
       (PlyMesh_init (H := planar all_mirror) square one_quad)
     = Ok (12, [(4, 3, 0); (5, 1, 2); (0, 0, 0); (0, 0, 0)])
  /\ ~ distinct3 (0, 0, 0).
Proof. split; [|split]; [vm_compute; reflexivity.. | simpl; tauto]. Qed.

(** * Further properties of the code *)

(** ** [edge] and [edgeIter] *)

Lemma edge_eq_inv a b c d :
  edge a b = edge c d -> (a = c /\ b = d) \/ (a = d /\ b = c).
Proof. unfold edge. intros [= H1 H2]. lia. Qed.

Lemma edgeIter_loop_zip i0 i_last it :
  edgeIter_loop i0 i_last it = zip_with edge (i_last :: it) (it ++ [i0]).
Proof.
  revert i_last. induction it as [|i it IH]; intros i_last; simpl; [done|].
  by rewrite IH.
Qed.

(** X1.  On a non-empty face [edgeIter] yields one canonical pair per
    vertex: the k-th pair joins the k-th vertex with its successor, the
    successor of the last vertex being the first one. *)
Theorem edgeIter_consecutive_pairs i0 it :
  exists edges,
    edgeIter (i0 :: it) = Ok edges
    /\ length edges = length (i0 :: it)
    /\ (forall (k : nat) x y,
          (i0 :: it) !! k = Some x -> (it ++ [i0]) !! k = Some y ->
          edges !! k = Some (edge x y))
    /\ Forall (fun e => e.1 <= e.2) edges.
Proof.
  exists (zip_with edge (i0 :: it) (it ++ [i0])).
  split; [simpl; by rewrite edgeIter_loop_zip|].
  split.
  { rewrite length_zip_with, length_app. cbn [length]. lia. }
  split.
  - intros k x y Hx Hy. rewrite lookup_zip_with, Hx. simpl. by rewrite Hy.
  - apply Forall_forall. intros e (x & y & -> & _)%elem_of_zip_with.
    apply edge_canonical.
Qed.

(** Membership in the pairs of one run of the loop: a pair of two
    neighbours of the list, or the closing pair back to [i0]. *)
Lemma elem_of_edgeIter_loop e i0 i_last it :
  e ∈ edgeIter_loop i0 i_last it <->
  (exists (k : nat) x y, (i_last :: it) !! k = Some x
                 /\ (i_last :: it) !! S k = Some y /\ e = edge x y)
  \/ (exists x, last (i_last :: it) = Some x /\ e = edge x i0).
Proof.
  revert i_last. induction it as [|i it IH]; intros i_last; cbn [edgeIter_loop].
  - rewrite list_elem_of_singleton. split.
    + intros ->. right. by exists i_last.
    + intros [(k & x & y & _ & Hy & _) | (x & [= <-] & ->)]; [|done].
      by destruct k.
  - rewrite elem_of_cons, IH. split.
    + intros [-> | [(k & x & y & Hx & Hy & ->) | (x & Hl & ->)]].
      * left. by exists 0%nat, i_last, i.
      * left. by exists (S k), x, y.
      * right. exists x. by rewrite last_cons_cons.
    + intros [(k & x & y & Hx & Hy & ->) | (x & Hl & ->)].
      * destruct k as [|k]; [left; simpl in *; by simplify_eq|].
        right. left. by exists k, x, y.
      * right. right. exists x. by rewrite last_cons_cons in Hl.
Qed.

Lemma edgeIter_loop_NoDup i0 i_last it :
  NoDup (i_last :: it) -> i0 ∉ it ->
  (i0 = i_last -> (2 <= length it)%nat) ->
  NoDup (edgeIter_loop i0 i_last it).
Proof.
  revert i_last. induction it as [|i it IH]; intros i_last Hnd Hi0 Hlen; simpl.
  - apply NoDup_singleton.
  - apply NoDup_cons in Hnd as [Hlast Hnd].
    apply not_elem_of_cons in Hlast as [Hne Hlast].
    apply not_elem_of_cons in Hi0 as [Hi0 Hi0'].
    pose proof Hnd as [Hi _]%NoDup_cons.
    apply NoDup_cons. split; [|apply IH; [done | done | congruence]].
    rewrite elem_of_edgeIter_loop.
    intros [(k & x & y & Hx & Hy & He) | (x & Hl & He)].
    + apply list_elem_of_lookup_2 in Hx. simpl in Hy.
      apply list_elem_of_lookup_2 in Hy.
      apply edge_eq_inv in He as [[-> _] | [-> _]]; [|done].
      by apply elem_of_cons in Hx as [-> | Hx].
    + apply edge_eq_inv in He as [[-> <-] | [-> <-]]; [done|].
      destruct it as [|i' it]; [simpl in Hlen; specialize (Hlen eq_refl); lia|].
      rewrite last_cons_cons in Hl. apply last_Some_elem_of in Hl. done.
Qed.

(** X2.  A face with at least three vertices, all different, passes the
    check of the [assert]: its distinct canonical boundary edges are as
    many as its vertices. *)
Theorem distinct_vertices_pass_edge_check poly :
  NoDup poly -> (3 <= length poly)%nat ->
  boundary_edge_count poly = length poly.
Proof.
  intros Hnd Hlen. destruct poly as [|i0 it]; [simpl in Hlen; lia|].
  unfold boundary_edge_count. simpl in *.
  rewrite size_list_to_set.
  - rewrite edgeIter_loop_zip, length_zip_with, length_app. cbn [length]. lia.
  - apply edgeIter_loop_NoDup; [done | by apply NoDup_cons in Hnd as [? _] | lia].
Qed.

Lemma distinct_vertices_pass_edge_check_witness :
  boundary_edge_count [4; 7; 1; 3] = length [4; 7; 1; 3].
Proof.
  apply distinct_vertices_pass_edge_check; [compute_done | simpl; lia].
Defined.

Lemma elem_of_edgeIter poly edges e :
  edgeIter poly = Ok edges -> e ∈ edges <-> cyclic_pair poly e.
Proof.
  destruct poly as [|i0 it]; [discriminate|]. intros [= <-].
  rewrite elem_of_edgeIter_loop. unfold cyclic_pair. simpl head.
  split; (intros [H | (x & Hx)]; [by left | right]).
  - destruct Hx as [Hl ->]. by exists x, i0.
  - destruct Hx as (y & Hl & [= <-] & ->). by exists x.
Qed.

Lemma external_edges_of_ext poly1 poly2 :
  (poly1 = [] <-> poly2 = []) ->
  (forall e, cyclic_pair poly1 e <-> cyclic_pair poly2 e) ->
  external_edges_of poly1 = external_edges_of poly2.
Proof.
  intros Hnil Hp. unfold external_edges_of.
  destruct (edgeIter poly1) as [es1|e1] eqn:E1,
           (edgeIter poly2) as [es2|e2] eqn:E2; simpl.
  - f_equal. apply set_eq. intros e. rewrite !elem_of_list_to_set.
    by rewrite (elem_of_edgeIter _ _ _ E1), (elem_of_edgeIter _ _ _ E2).
  - destruct poly2; [|discriminate]. destruct poly1; [discriminate|].
    destruct Hnil as [_ Hn]. by specialize (Hn eq_refl).
  - destruct poly1; [|discriminate]. destruct poly2; [discriminate|].
    destruct Hnil as [Hn _]. by specialize (Hn eq_refl).
  - destruct poly1, poly2; simpl in *; congruence.
Qed.

Lemma cyclic_pair_reverse poly e :
  cyclic_pair (reverse poly) e -> cyclic_pair poly e.
Proof.
  intros [(k & x & y & Hx & Hy & ->) | (x & y & Hl & Hh & ->)].
  - apply reverse_lookup_Some in Hx as [Hx Hk].
    apply reverse_lookup_Some in Hy as [Hy Hk'].
    left. exists (length poly - S (S k))%nat, y, x.
    split; [done|]. split; [|apply edge_comm].
    by replace (S (length poly - S (S k))) with (length poly - S k)%nat by lia.
  - rewrite last_reverse in Hl. rewrite head_reverse in Hh.
    right. exists y, x. split; [done|]. split; [done | apply edge_comm].
Qed.

Lemma cyclic_pair_rotate x l e :
  cyclic_pair (x :: l) e <-> cyclic_pair (l ++ [x]) e.
Proof.
  destruct l as [|y l]; [done|]. unfold cyclic_pair.
  rewrite last_cons_cons, last_snoc. simpl head.
  split.
  - intros [(k & a & b & Ha & Hb & ->) | (a & b & Hl & [= <-] & ->)].
    + destruct k as [|k]; simpl in Ha, Hb.
      * simplify_eq. right. by exists a, b.
      * left. exists k, a, b.
        apply lookup_lt_Some in Hb as Hlt.
        by rewrite !lookup_app_l by (simpl; lia).
    + left. exists (length l), a, x.
      rewrite last_lookup in Hl. simpl in Hl.
      split; [|split; [|done]].
      * rewrite lookup_app_l by (simpl; lia). done.
      * change (S (length l)) with (length (y :: l)).
        by rewrite lookup_app_r, Nat.sub_diag.
  - intros [(k & a & b & Ha & Hb & ->) | (a & b & [= <-] & [= <-] & ->)].
    + destruct (decide (S k < length (y :: l))%nat) as [Hk|Hk].
      * rewrite !lookup_app_l in Ha, Hb by (simpl in *; lia).
        left. by exists (S k), a, b.
      * assert (S k = length (y :: l)) as Hk'.
        { apply lookup_lt_Some in Hb. rewrite length_app in Hb.
          simpl in *. lia. }
        rewrite Hk', lookup_app_r, Nat.sub_diag in Hb by done.
        simpl in Hb. injection Hb as <-.
        rewrite lookup_app_l in Ha by (simpl in *; lia).
        right. exists a, x. split; [|done].
        rewrite last_lookup. simpl in *.
        by replace (length l) with k by lia.
    + left. by exists 0%nat, x, y.
Qed.

(** X3.  The set of boundary edges of a face does not depend on where
    its vertex list starts nor on its direction: any rotation and the
    reversal of the list give the same set (and the same exception on an
    empty face). *)
Theorem boundary_edges_cyclic l1 l2 :
  external_edges_of (l2 ++ l1) = external_edges_of (l1 ++ l2)
  /\ external_edges_of (reverse l1) = external_edges_of l1.
Proof.
  split.
  - revert l2. induction l1 as [|x l1 IH]; intros l2.
    + by rewrite app_nil_r.
    + rewrite (cons_middle x l2 l1), (assoc_L (++)), IH.
      rewrite (assoc_L (++)). symmetry.
      apply external_edges_of_ext.
      { split; [discriminate | by destruct (l1 ++ l2)]. }
      intros e. apply (cyclic_pair_rotate x (l1 ++ l2)).
  - apply external_edges_of_ext.
    + split; [|by intros ->].
      intros Hr. apply (f_equal reverse) in Hr.
      by rewrite reverse_involutive in Hr.
    + intros e. split; [apply cyclic_pair_reverse|].
      intros He. apply cyclic_pair_reverse. by rewrite reverse_involutive.
Qed.

(** ** Invariants of the two closures carry over to the whole loop *)

Lemma hoare_process_poly `{Numerics} (I : state -> Prop) :
  (forall t, hoare I (add_tri t) (fun _ => I)) ->
  (forall v, hoare I (internalize_vtx v) (fun _ => I)) ->
  forall poly, hoare I (process_poly poly) (fun _ => I).
Proof.
  intros Hadd Hint poly.
  assert (Hcond : forall (b : bool) v,
             hoare I (if b then internalize_vtx v else ret v) (fun _ => I)).
  { intros [] v; [apply Hint | apply hoare_ret]. }
  assert (Htri : forall t, hoare I (let* _ := add_tri t in ret tt) (fun _ => I)).
  { intros t. eapply hoare_bind; [apply Hadd | intros ?; apply hoare_ret]. }
  assert (Hbody : forall external_edges flip t,
             hoare I (tri_body poly external_edges flip t) (fun _ => I)).
  { intros external_edges flip [[a b] c]. unfold tri_body. hoare_lifts.
    destruct flip; hoare_lifts;
      (eapply hoare_bind; [apply Hcond | intros ?]);
      (eapply hoare_bind; [apply Hcond | intros ?]);
      (eapply hoare_bind; [apply Hcond | intros ?]);
      (eapply hoare_bind; [apply Hadd | intros ?]);
      apply hoare_ret. }
  assert (Hngon : hoare I (process_ngon poly) (fun _ => I)).
  { unfold process_ngon.
    eapply hoare_bind; [apply hoare_lift | intros edges].
    eapply hoare_bind; [apply hoare_assert | intros ?].
    eapply hoare_bind; [apply hoare_get | intros s0].
    eapply hoare_bind; [apply hoare_lift | intros poly_verts].
    eapply hoare_bind; [apply hoare_lift | intros [[p0 p1] p2]].
    eapply hoare_bind; [apply hoare_lift | intros new_tris].
    eapply hoare_bind; [apply hoare_lift | intros geom_tri0].
    eapply hoare_bind; [apply hoare_lift | intros [[g0 g1] g2]].
    apply hoare_for_each. intros t _. apply Hbody. }
  unfold process_poly.
  destruct poly as [|a [|b [|c [|d poly]]]]; first [apply Htri | apply Hngon].
Qed.

Lemma hoare_PlyMesh_run `{Numerics} (I : state -> Prop) vertices faces s :
  (forall t, hoare I (add_tri t) (fun _ => I)) ->
  (forall v, hoare I (internalize_vtx v) (fun _ => I)) ->
  I (init_state vertices faces) ->
  PlyMesh_run vertices faces = Ok s -> I s.
Proof.
  intros Hadd Hint Hinit E%PlyMesh_run_Ok.
  eapply (hoare_for_each I); [|exact Hinit | exact E].
  intros poly _. by apply hoare_process_poly.
Qed.

(** ** Layout of the vertex pool *)

Lemma pool_init vertices faces : pool vertices (init_state vertices faces).
Proof.
  split.
  - intros k v Hk. rewrite init_vertex_nparr.
    rewrite lookup_app_l by (rewrite length_map; by eapply lookup_lt_Some).
    by rewrite list_lookup_fmap, Hk.
  - simpl. rewrite map_size_empty. lia.
  - simpl. lia.
  - simpl. intros k i v. by rewrite lookup_empty.
Qed.

Lemma wf_pool_add_tri vertices T t :
  hoare (wf_pool vertices T) (add_tri t) (fun _ => wf_pool vertices T).
Proof.
  intros s i s' [Hwf Hp] E.
  split; [exact (wf_add_tri _ _ t s i s' Hwf E)|].
  apply add_tri_Ok in E as (_ & _ & ->);
    [|pose proof (wf_tidx _ _ _ Hwf); lia].
  by destruct Hp.
Qed.

Lemma wf_pool_internalize_vtx vertices T v :
  hoare (wf_pool vertices T) (internalize_vtx v) (fun _ => wf_pool vertices T).
Proof.
  intros s i s' [Hwf Hp] E.
  split; [exact (proj1 (wf_internalize_vtx _ _ v s i s' Hwf E))|].
  pose proof (wf_vidx _ _ _ Hwf) as Hvi. pose proof (wf_n0 _ _ _ Hwf) as Hn0.
  pose proof (wf_vlen _ _ _ Hwf) as Hvl.
  apply internalize_vtx_Ok in E as [[_ ->] | (Hnone & -> & Hlt & r & Er & ->)];
    [done | | lia].
  destruct Hp as [Ho Hs Hon Hc]. split; simpl.
  - intros k x Hk. rewrite list_lookup_insert_ne; [by apply Ho|].
    apply lookup_lt_Some in Hk. unfold len in *. lia.
  - rewrite map_size_insert_None by done. lia.
  - intros j Hj. destruct (decide (j = vtx_idx s)) as [->|Hne].
    + exists v. apply lookup_insert_eq.
    + destruct (Hon j) as [k Hk]; [lia|]. exists k.
      rewrite lookup_insert_ne; [done | congruence].
  - intros k j x Hk Hk0 Hx.
    destruct (decide (k = v)) as [->|Hne].
    + rewrite lookup_insert_eq in Hk. injection Hk as <-.
      rewrite list_lookup_insert_eq by (unfold len in *; lia).
      apply lookup_lt_Some in Hx as Hlen.
      apply np_index_in_range in Er; [|unfold len in *; lia].
      apply Ho in Hx. by simplify_eq.
    + rewrite lookup_insert_ne in Hk by done.
      destruct (wf_map _ _ _ Hwf _ _ Hk) as [Hj _].
      rewrite list_lookup_insert_ne by lia. by eapply Hc.
Qed.

Lemma wf_pool_PlyMesh_run `{Numerics} vertices faces s :
  PlyMesh_run vertices faces = Ok s -> wf_pool vertices (total_tris faces) s.
Proof.
  apply (hoare_PlyMesh_run (wf_pool vertices (total_tris faces))).
  - apply wf_pool_add_tri.
  - apply wf_pool_internalize_vtx.
  - split; [apply wf_init | apply pool_init].
Qed.

(** X4.  The rows of the input vertices are never overwritten: when the
    input coordinates are float32 values, after a successful conversion
    row [k] of the vertex pool still holds the coordinates of input
    vertex [k], zeros in columns 3 to 5 and interior flag 0. *)
Theorem input_rows_kept `{Numerics} vertices faces s (k : nat) v :
  Forall float32_vertex vertices ->
  PlyMesh_run vertices faces = Ok s ->
  vertices !! k = Some v ->
  vertex_nparr s !! k = Some (row_of_vertex v).
Proof.
  intros _ E Hk. destruct (wf_pool_PlyMesh_run _ _ _ E) as [_ Hp].
  by apply (pool_orig _ _ Hp).
Qed.

Lemma input_rows_kept_witness :
  (exists s,
     PlyMesh_run (H := planar no_mirror) square one_quad = Ok s
     /\ vertex_nparr s !! 1%nat = Some (row_of_vertex (PlyVertex 1 0 0)))
  /\ (exists s,
        PlyMesh_run (H := planar all_mirror) square one_quad = Ok s
        /\ vertex_nparr s !! 1%nat = Some (row_of_vertex (PlyVertex 1 0 0))).
Proof.
  split.
  - assert (is_ok (PlyMesh_run (H := planar no_mirror) square one_quad) = true)
      as Hok by (vm_compute; reflexivity).
    destruct (PlyMesh_run _ _) as [s|e] eqn:E; [|discriminate Hok].
    exists s. split; [reflexivity|].
    exact (input_rows_kept (H := planar no_mirror) square one_quad s 1
             (PlyVertex 1 0 0) square_float32 E eq_refl).
  - assert (is_ok (PlyMesh_run (H := planar all_mirror) square one_quad) = true)
      as Hok by (vm_compute; reflexivity).
    destruct (PlyMesh_run _ _) as [s|e] eqn:E; [|discriminate Hok].
    exists s. split; [reflexivity|].
    exact (input_rows_kept (H := planar all_mirror) square one_quad s 1
             (PlyVertex 1 0 0) square_float32 E eq_refl).
Defined.

(** X5.  The duplicates fill the vertex pool without gaps: after a
    successful conversion the vertex cursor is the number of input
    vertices plus the number of keys of [internal_vertices], every entry
    of the dict points into the slots between the two, and every such
    slot is the duplicate of exactly one key. *)
Theorem duplicates_fill_pool_tail `{Numerics} vertices faces s :
  PlyMesh_run vertices faces = Ok s ->
  vtx_idx s = len vertices + Z.of_nat (size (internal_vertices s))
  /\ (forall k i, internal_vertices s !! k = Some i ->
                  len vertices <= i < vtx_idx s)
  /\ (forall i, len vertices <= i < vtx_idx s ->
        exists k, internal_vertices s !! k = Some i
                  /\ forall k', internal_vertices s !! k' = Some i -> k' = k).
Proof.
  intros E. destruct (wf_pool_PlyMesh_run _ _ _ E) as [Hwf Hp].
  split; [apply (pool_size _ _ Hp)|]. split.
  - intros k i Hk. by destruct (wf_map _ _ _ Hwf _ _ Hk).
  - intros i Hi. destruct (pool_onto _ _ Hp i Hi) as [k Hk].
    exists k. split; [done|]. intros k' Hk'.
    exact (wf_inj _ _ _ Hwf k' k i Hk' Hk).
Qed.

Lemma duplicates_fill_pool_tail_witness :
  exists s,
    PlyMesh_run (H := fan1) square one_quad = Ok s
    /\ vtx_idx s = len square + Z.of_nat (size (internal_vertices s)).
Proof.
  assert (is_ok (PlyMesh_run (H := fan1) square one_quad) = true)
    as Hok by (vm_compute; reflexivity).
  destruct (PlyMesh_run _ _) as [s|e] eqn:E; [|discriminate Hok].
  exists s. split; [reflexivity|].
  exact (proj1 (duplicates_fill_pool_tail (H := fan1) square one_quad s E)).
Defined.

(** X6.  A duplicate is a copy of its original: when the input
    coordinates are float32 values and the key [k] of [internal_vertices]
    is the index of the input vertex [v], the slot it maps to lies after
    the input vertices and holds the coordinates of [v] with interior
    flag 1. *)
Theorem duplicate_is_copy `{Numerics} vertices faces s k i v :
  Forall float32_vertex vertices ->
  PlyMesh_run vertices faces = Ok s ->
  internal_vertices s !! k = Some i ->
  0 <= k ->
  vertices !! Z.to_nat k = Some v ->
  vertex_nparr s !! Z.to_nat i = Some (set_interior (row_of_vertex v) 1)
  /\ len vertices <= i.
Proof.
  intros _ E Hk Hk0 Hv. destruct (wf_pool_PlyMesh_run _ _ _ E) as [Hwf Hp].
  split; [by apply (pool_copy _ _ Hp k) |].
  by destruct (wf_map _ _ _ Hwf _ _ Hk) as [[? ?] _].
Qed.

Lemma duplicate_is_copy_witness :
  (exists s,
     PlyMesh_run (H := planar no_mirror) square one_quad = Ok s
     /\ vertex_nparr s !! 4%nat
        = Some (set_interior (row_of_vertex (PlyVertex 0 0 0)) 1))
  /\ (exists s,
        PlyMesh_run (H := planar all_mirror) square one_quad = Ok s
        /\ vertex_nparr s !! 4%nat
           = Some (set_interior (row_of_vertex (PlyVertex 1 0 0)) 1)).
Proof.
  split.
  - assert (rmap (fun s => internal_vertices s !! 0)
              (PlyMesh_run (H := planar no_mirror) square one_quad)
            = Ok (Some 4)) as Hk by (vm_compute; reflexivity).
    destruct (PlyMesh_run _ _) as [s|e] eqn:E; [|discriminate Hk].
    injection Hk as Hk.
    exists s. split; [reflexivity|].
    exact (proj1 (duplicate_is_copy (H := planar no_mirror) square one_quad
                    s 0 4 (PlyVertex 0 0 0) square_float32 E Hk
                    ltac:(lia) eq_refl)).
  - assert (rmap (fun s => internal_vertices s !! 1)
              (PlyMesh_run (H := planar all_mirror) square one_quad)
            = Ok (Some 4)) as Hk by (vm_compute; reflexivity).
    destruct (PlyMesh_run _ _) as [s|e] eqn:E; [|discriminate Hk].
    injection Hk as Hk.
    exists s. split; [reflexivity|].
    exact (proj1 (duplicate_is_copy (H := planar all_mirror) square one_quad
                    s 1 4 (PlyVertex 1 0 0) square_float32 E Hk
                    ltac:(lia) eq_refl)).
Defined.

(** X7.  The interior flag marks exactly the duplicates: after a
    successful conversion a row of the vertex pool has interior flag 1 if
    and only if its index lies between the number of input vertices and
    the vertex cursor; every other row has flag 0. *)
Theorem interior_flag_marks_duplicates `{Numerics} vertices faces s (j : nat) r :
  PlyMesh_run vertices faces = Ok s ->
  vertex_nparr s !! j = Some r ->
  (len vertices <= Z.of_nat j < vtx_idx s -> interior r = 1%Q)
  /\ (~ len vertices <= Z.of_nat j < vtx_idx s -> interior r = 0%Q).
Proof.
  intros E Hj. destruct (wf_pool_PlyMesh_run _ _ _ E) as [Hwf Hp].
  split.
  - intros Hr. destruct (pool_onto _ _ Hp _ Hr) as [k Hk].
    destruct (wf_map _ _ _ Hwf _ _ Hk) as [_ (r' & Hr' & Hi)].
    rewrite Nat2Z.id in Hr'. by simplify_eq.
  - intros Hr. destruct (decide (Z.of_nat j < len vertices)) as [Hlt|Hge].
    + destruct (lookup_lt_is_Some_2 vertices j) as [v Hv];
        [unfold len in Hlt; lia|].
      rewrite (pool_orig _ _ Hp _ _ Hv) in Hj. by simplify_eq.
    + rewrite (wf_vtail _ _ _ Hwf j r) by (done || lia). done.
Qed.

Lemma interior_flag_marks_duplicates_witness :
  exists s r,
    PlyMesh_run (H := fan1) square one_quad = Ok s
    /\ vertex_nparr s !! 5%nat = Some r
    /\ interior r = 1%Q.
Proof.
  assert (rmap (fun s => (vtx_idx s, from_option (fun _ => true) false (vertex_nparr s !! 5%nat)))
               (PlyMesh_run (H := fan1) square one_quad) = Ok (6, true))
    as Hs by (vm_compute; reflexivity).
  destruct (PlyMesh_run _ _) as [s|e] eqn:E; [|discriminate Hs].
  injection Hs as Hi Hr.
  destruct (vertex_nparr s !! 5%nat) as [r|] eqn:Er; [|discriminate Hr].
  exists s, r. split; [reflexivity|]. split; [exact Er|].
  apply (proj1 (interior_flag_marks_duplicates (H := fan1) square one_quad
                  s 5 r E Er)).
  rewrite Hi. unfold len. simpl. lia.
Defined.

(** ** Faces that are not polygons, and meshes of triangles *)

(** X8.  A face with fewer than three indices stops the conversion, each
    length in its own way: an empty face by the RuntimeError that the
    exhausted iterator inside the generator [edgeIter] turns into, a face
    of one index by an IndexError when three points are read from it, a
    face of two indices by the AssertionError of the edge count. *)
Theorem short_face_exceptions `{Numerics} (a b : Z) (s : state) :
  process_poly [] s = Raise RuntimeError
  /\ process_poly [a] s = Raise IndexError
  /\ process_poly [a; b] s = Raise AssertionError.
Proof.
  split; [apply process_ngon_empty|].
  split; [apply process_ngon_single | apply process_ngon_pair].
Qed.

Lemma add_tri_succeeds t s :
  0 <= tri_idx s < len (tri_nparr s) ->
  add_tri t s
  = Ok (tri_idx s,
        State (vertex_nparr s) (vtx_idx s) (index_basetype s)
              (<[Z.to_nat (tri_idx s) :=
                   (np_cast (index_basetype s) t.1.1,
                    np_cast (index_basetype s) t.1.2,
                    np_cast (index_basetype s) t.2)]> (tri_nparr s))
              (tri_idx s + 1) (internal_vertices s)).
Proof.
  intros Hi. destruct t as [[a b] c]. unfold add_tri, np_setitem.
  rewrite np_norm_index_in_range by (unfold len in Hi; lia).
  simpl. do 2 f_equal. lia.
Qed.

Lemma total_tris_triangles faces :
  Forall (fun poly => length poly = 3%nat) faces -> total_tris faces = len faces.
Proof.
  intros Hall.
  assert (large_faces faces = []) as Hl.
  { unfold large_faces. induction Hall as [|poly faces Hp _ IH]; [done|].
    rewrite filter_cons, IH. unfold len. rewrite Hp.
    by destruct (decide _) as [?|?]; [lia|]. }
  unfold total_tris, num_tris, num_interior_tris, num_large_faces.
  rewrite Hl. simpl. unfold len. simpl. lia.
Qed.

Lemma for_each_triangles `{Numerics} faces :
  Forall (fun poly => length poly = 3%nat) faces ->
  forall done s,
    tri_nparr s = done ++ replicate (length faces) (0, 0, 0) ->
    tri_idx s = len done ->
    for_each faces process_poly s
    = Ok (tt, State (vertex_nparr s) (vtx_idx s) (index_basetype s)
                    (done ++ map (cast_face (index_basetype s)) faces)
                    (len done + len faces) (internal_vertices s)).
Proof.
  induction 1 as [|poly faces Hp _ IH]; intros done s Ht Hi.
  - cbn [for_each map length replicate] in *. rewrite app_nil_r in *.
    unfold ret.
    replace (len done + len []) with (tri_idx s)
      by (rewrite Hi; unfold len; simpl; lia).
    rewrite <- Ht. by destruct s.
  - destruct poly as [|a [|b [|c [|d poly]]]]; try discriminate Hp.
    cbn [for_each process_poly]. unfold bind at 1 2.
    rewrite add_tri_succeeds.
    2:{ rewrite Ht, Hi. unfold len. rewrite length_app. simpl. lia. }
    unfold ret at 1.
    rewrite (IH (done ++ [cast_face (index_basetype s) [a; b; c]])); simpl.
    + rewrite <- (assoc_L (++)). simpl. do 3 f_equal.
      unfold len. rewrite length_app. simpl. lia.
    + rewrite Ht, Hi. unfold len. rewrite Nat2Z.id.
      rewrite insert_app_r_alt by lia. rewrite Nat.sub_diag. simpl.
      by rewrite <- (assoc_L (++)).
    + rewrite Hi. unfold len. rewrite length_app. simpl. lia.
Qed.

(** X9.  A mesh whose faces all have three indices always converts,
    whatever the indices are: no index is checked against the vertex
    array.  The index pool is the list of faces, each index cast to the
    index type; the vertex pool is as it was filled from the input; no
    duplicate is created. *)
Theorem triangle_mesh_converts `{Numerics} vertices faces :
  Forall (fun poly => length poly = 3%nat) faces ->
  exists s,
    PlyMesh_run vertices faces = Ok s
    /\ tri_nparr s = map (cast_face (index_basetype s)) faces
    /\ tri_idx s = len faces
    /\ index_basetype s = select_index_basetype (len faces)
    /\ vertex_nparr s = vertex_nparr (init_state vertices faces)
    /\ vtx_idx s = len vertices
    /\ internal_vertices s = ∅.
Proof.
  intros Hall. unfold PlyMesh_run.
  rewrite (for_each_triangles faces Hall []).
  - eexists. split; [reflexivity|].
    cbn [vertex_nparr vtx_idx index_basetype tri_nparr tri_idx
         internal_vertices init_state].
    rewrite (total_tris_triangles faces Hall).
    split; [done|]. split; [unfold len; simpl; lia | done].
  - cbn [tri_nparr init_state app]. unfold np_zeros.
    rewrite (total_tris_triangles faces Hall).
    unfold len. by rewrite Nat2Z.id.
  - done.
Qed.

Lemma triangle_mesh_converts_witness :
  exists s,
    PlyMesh_run (H := fan1) square [[0; 1; 2]; [7; -1; 70000]] = Ok s
    /\ tri_nparr s = [(0, 1, 2); (7, 65535, 4464)]
    /\ vtx_idx s = 4.
Proof.
  destruct (triangle_mesh_converts (H := fan1) square
              [[0; 1; 2]; [7; -1; 70000]])
    as (s & E & Ht & _ & Hb & _ & Hv & _).
  - repeat constructor.
  - exists s. split; [exact E|]. split; [|exact Hv].
    rewrite Ht, Hb. reflexivity.
Defined.

(** ** Which corners of a triangle are duplicated *)

Lemma corner_extends s s' external_edges e v i :
  extends s s' ->
  corner s external_edges e v = Some i -> corner s' external_edges e v = Some i.
Proof.
  intros (_ & _ & _ & Hm). unfold corner.
  destruct (bool_decide _); [done | apply Hm].
Qed.

Lemma cond_internalize_corner n0 T external_edges e v s i s' :
  wf n0 T s ->
  (if bool_decide (e ∉ external_edges) then internalize_vtx v else ret v) s
  = Ok (i, s') ->
  wf n0 T s' /\ extends s s' /\ corner s' external_edges e v = Some i.
Proof.
  intros Hwf E.
  destruct (cond_internalize_spec _ _ _ _ _ _ _ Hwf E) as (Hwf' & Hx & _).
  split; [done|]. split; [done|]. unfold corner.
  destruct (decide (e ∈ external_edges)) as [Hin|Hout].
  - rewrite bool_decide_eq_true_2 by done.
    rewrite bool_decide_eq_false_2 in E by (by intros ?).
    by apply ret_Ok in E as [-> _].
  - rewrite bool_decide_eq_false_2 by done.
    rewrite bool_decide_eq_true_2 in E by done.
    by destruct (wf_internalize_vtx n0 T v s i s' Hwf E).
Qed.

(** X10.  One round of the loop over the triangles of a polygon writes
    one row.  With [va], [vb], [vc] the vertices read from the polygon
    (the last two exchanged when the winding is flipped), each corner of
    the row is the vertex itself when the edge from it to the next corner
    is a boundary edge of the polygon, and the duplicate of the vertex
    otherwise: a corner is replaced exactly when the edge that leaves it
    is a diagonal. *)
Theorem corner_duplicated_on_diagonal n0 T poly external_edges flip
    (a b c va vb vc : Z) s u s' :
  wf n0 T s ->
  np_index poly a = Ok va -> np_index poly b = Ok vb ->
  np_index poly c = Ok vc ->
  tri_body poly external_edges flip (Some a, Some b, Some c) s = Ok (u, s') ->
  let wb := if flip then vc else vb in
  let wc := if flip then vb else vc in
  exists ia ib ic,
    corner s' external_edges (edge va wb) va = Some ia
    /\ corner s' external_edges (edge wb wc) wb = Some ib
    /\ corner s' external_edges (edge wc va) wc = Some ic
    /\ tri_nparr s' !! Z.to_nat (tri_idx s)
       = Some (np_cast (index_basetype s) ia, np_cast (index_basetype s) ib,
               np_cast (index_basetype s) ic)
    /\ tri_idx s' = tri_idx s + 1.
Proof.
  intros Hwf Ea Eb Ec E wb wc. unfold tri_body, poly_item in E.
  rewrite Ea, Eb, Ec in E. cbn [rmap rbind] in E. rewrite !bind_lift_Ok in E.
  assert ((let* idx_a :=
             (if bool_decide (edge va wb ∉ external_edges)
              then internalize_vtx va else ret va) in
           let* idx_b :=
             (if bool_decide (edge wb wc ∉ external_edges)
              then internalize_vtx wb else ret wb) in
           let* idx_c :=
             (if bool_decide (edge wc va ∉ external_edges)
              then internalize_vtx wc else ret wc) in
           let* _ := add_tri (idx_a, idx_b, idx_c) in
           ret tt) s = Ok (u, s')) as E'.
  { subst wb wc. destruct flip; cbn [edge_of as_int] in E;
      by rewrite !bind_lift_Ok in E. }
  clear E. rename E' into E.
  apply bind_Ok in E as (ia & s1 & E1 & E).
  apply bind_Ok in E as (ib & s2 & E2 & E).
  apply bind_Ok in E as (ic & s3 & E3 & E).
  apply bind_Ok in E as (row & s4 & E4 & [_ ->]%ret_Ok).
  destruct (cond_internalize_corner _ _ _ _ _ _ _ _ Hwf E1) as (Hwf1 & X1 & C1).
  destruct (cond_internalize_corner _ _ _ _ _ _ _ _ Hwf1 E2) as (Hwf2 & X2 & C2).
  destruct (cond_internalize_corner _ _ _ _ _ _ _ _ Hwf2 E3) as (Hwf3 & X3 & C3).
  pose proof (extends_trans _ _ _ X1 (extends_trans _ _ _ X2 X3))
    as (Htn & Hti & _ & _).
  pose proof (wf_tidx _ _ _ Hwf3) as Ht3.
  assert (index_basetype s3 = index_basetype s) as Hbt
    by (rewrite (wf_dtype _ _ _ Hwf3), (wf_dtype _ _ _ Hwf); done).
  apply add_tri_Ok in E4 as (_ & Hlt & ->); [|lia].
  exists ia, ib, ic. unfold corner in *. cbn [internal_vertices tri_nparr tri_idx].
  split; [exact (corner_extends _ _ _ _ _ _ (extends_trans _ _ _ X2 X3) C1)|].
  split; [exact (corner_extends _ _ _ _ _ _ X3 C2)|].
  split; [exact C3|].
  rewrite Hbt, Hti. split; [|done].
  apply list_lookup_insert_eq. unfold len in Hlt. lia.
Qed.

Lemma corner_duplicated_on_diagonal_witness :
  exists s',
    tri_body [0; 1; 2; 3] (list_to_set [(0, 1); (1, 2); (2, 3); (0, 3)])
             false (Some 0, Some 1, Some 2) (init_state square one_quad)
    = Ok (tt, s')
    /\ tri_nparr s' !! 0%nat = Some (0, 1, 4).
Proof.
  assert (is_ok (tri_body [0; 1; 2; 3]
                   (list_to_set [(0, 1); (1, 2); (2, 3); (0, 3)])
                   false (Some 0, Some 1, Some 2) (init_state square one_quad))
          = true) as Hok by (vm_compute; reflexivity).
  destruct (tri_body _ _ _ _ _) as [[[] s']|e] eqn:E; [|discriminate Hok].
  exists s'. split; [reflexivity|].
  destruct (corner_duplicated_on_diagonal 4 (total_tris one_quad)
              [0; 1; 2; 3] _ false
              0 1 2 0 1 2 _ _ _ (wf_init square one_quad)
              eq_refl eq_refl eq_refl E)
    as (ia & ib & ic & Ca & Cb & Cc & Hrow & _).
  assert (ia = 0) as -> by (vm_compute in Ca; congruence).
  assert (ib = 1) as -> by (vm_compute in Cb; congruence).
  assert (internal_vertices s' !! 2 = Some 4) as Hc.
  { assert (rmap (fun r => internal_vertices r.2 !! 2)
              (tri_body [0; 1; 2; 3]
                 (list_to_set [(0, 1); (1, 2); (2, 3); (0, 3)])
                 false (Some 0, Some 1, Some 2) (init_state square one_quad))
            = Ok (Some 4)) as Hm by (vm_compute; reflexivity).
    rewrite E in Hm. by injection Hm. }
  assert (ic = 4) as ->.
  { unfold corner in Cc. rewrite bool_decide_eq_false_2 in Cc by compute_done.
    congruence. }
  exact Hrow.
Defined.

(** ** The conversion succeeds on an input that meets the contract *)

Lemma np_index_succeeds {A} (arr : list A) i :
  0 <= i < len arr -> exists x, np_index arr i = Ok x /\ arr !! Z.to_nat i = Some x.
Proof.
  intros Hi. unfold np_index, len in *.
  rewrite np_norm_index_in_range by done.
  destruct (lookup_lt_is_Some_2 arr (Z.to_nat i)) as [x Hx]; [lia|].
  rewrite Hx. eauto.
Qed.

Lemma np_take_succeeds {A} (arr : list A) idxs :
  Forall (fun i => 0 <= i < len arr) idxs ->
  exists l, np_take arr idxs = Ok l /\ length l = length idxs.
Proof.
  unfold np_take. induction 1 as [|i idxs Hi _ (l & El & Hl)].
  - by exists [].
  - destruct (np_index_succeeds arr i Hi) as (x & Ex & _).
    exists (x :: l). cbn [rmapM]. rewrite Ex, El. simpl. by rewrite Hl.
Qed.

Lemma first_three_succeeds {A} (l : list A) :
  (3 <= length l)%nat -> exists t, first_three l = Ok t.
Proof.
  intros Hl. unfold first_three.
  destruct (np_index_succeeds l 0) as (a & -> & _); [unfold len; lia|].
  destruct (np_index_succeeds l 1) as (b & -> & _); [unfold len; lia|].
  destruct (np_index_succeeds l 2) as (c & -> & _); [unfold len; lia|].
  by exists (a, b, c).
Qed.

Lemma grouper_full n (k : nat) : forall l,
  length l = (3 * k)%nat -> Forall (fun a => 0 <= a < n) l ->
  Forall (full_group n) (grouper l) /\ length (grouper l) = k.
Proof.
  induction k as [|k IH]; intros l Hl Hall.
  - destruct l; [done | simpl in Hl; lia].
  - destruct l as [|a [|b [|c l]]]; simpl in Hl; try lia.
    apply Forall_cons in Hall as [Ha Hall].
    apply Forall_cons in Hall as [Hb Hall].
    apply Forall_cons in Hall as [Hc Hall].
    destruct (IH l) as [Hg Hlen]; [lia | done |].
    cbn [grouper]. split; [|simpl; by rewrite Hlen].
    constructor; [|done]. exists a, b, c. done.
Qed.

Lemma keys_ok_size n0 (m : gmap Z Z) v :
  (forall k i, m !! k = Some i -> 0 <= k < n0) ->
  m !! v = None -> 0 <= v < n0 -> Z.of_nat (size m) < n0.
Proof.
  intros Hk Hv Hr.
  assert (dom m ⊆ list_to_set (seqZ 0 n0) ∖ ({[v]} : gset Z)) as Hsub.
  { intros k [i Hi]%elem_of_dom. apply elem_of_difference. split.
    - apply elem_of_list_to_set, elem_of_seqZ. specialize (Hk k i Hi). lia.
    - rewrite elem_of_singleton. intros ->. congruence. }
  apply subseteq_size in Hsub. rewrite size_dom in Hsub.
  rewrite size_difference in Hsub.
  - rewrite size_singleton, size_list_to_set, length_seqZ in Hsub
      by apply NoDup_seqZ. lia.
  - intros k ->%elem_of_singleton.
    apply elem_of_list_to_set, elem_of_seqZ. lia.
Qed.

Lemma loop_inv_tidx vertices T s : loop_inv vertices T s -> 0 <= tri_idx s <= T.
Proof. intros [[Hwf _] _]. apply (wf_tidx _ _ _ Hwf). Qed.

Lemma internalize_vtx_succeeds vertices T v s :
  loop_inv vertices T s -> 0 <= v < len vertices ->
  exists i s', internalize_vtx v s = Ok (i, s')
               /\ loop_inv vertices T s' /\ tri_idx s' = tri_idx s.
Proof.
  intros [[Hwf Hp] Hk] Hv.
  pose proof (wf_vlen _ _ _ Hwf) as Hvl. pose proof (wf_vidx _ _ _ Hwf) as Hvi.
  assert (exists i s', internalize_vtx v s = Ok (i, s')) as (i & s' & E).
  { unfold internalize_vtx.
    destruct (internal_vertices s !! v) as [idx|] eqn:Em; [eauto|].
    destruct (np_index_succeeds (vertex_nparr s) v) as (r & Er & _); [lia|].
    rewrite Er, bind_lift_Ok. unfold bind, add_vtx, np_setitem.
    pose proof (keys_ok_size _ _ v Hk Em Hv) as Hsz.
    rewrite np_norm_index_in_range; [eauto|].
    rewrite (pool_size _ _ Hp). unfold len in *. lia. }
  exists i, s'. split; [done|].
  split; [split; [exact (wf_pool_internalize_vtx _ _ v s i s' (conj Hwf Hp) E)|]|].
  - apply internalize_vtx_Ok in E as [[_ ->] | (_ & _ & _ & r & _ & ->)];
      [done | | lia].
    intros k j. simpl. destruct (decide (k = v)) as [->|Hne]; [done|].
    rewrite lookup_insert_ne by done. apply Hk.
  - apply internalize_vtx_Ok in E as [[_ ->] | (_ & _ & _ & r & _ & ->)];
      [done | done | lia].
Qed.

Lemma cond_internalize_succeeds vertices T (b : bool) v s :
  loop_inv vertices T s -> 0 <= v < len vertices ->
  exists i s', (if b then internalize_vtx v else ret v) s = Ok (i, s')
               /\ loop_inv vertices T s' /\ tri_idx s' = tri_idx s.
Proof.
  intros HJ Hv. destruct b; [by apply internalize_vtx_succeeds|].
  by exists v, s.
Qed.

Lemma bind_Ok_l {A B} (m : M A) (k : A -> M B) s a s1 :
  m s = Ok (a, s1) -> bind m k s = k a s1.
Proof. intros E. unfold bind. by rewrite E. Qed.

Lemma face_item_succeeds n0 poly a :
  face_ok n0 poly -> 0 <= a < len poly ->
  exists va, np_index poly a = Ok va /\ 0 <= va < n0.
Proof.
  intros [_ Hr] Ha. destruct (np_index_succeeds poly a Ha) as (va & E & Hl).
  exists va. split; [done|]. apply Hr. by eapply list_elem_of_lookup_2.
Qed.

Lemma add_tri_keeps_loop_inv vertices T t s :
  loop_inv vertices T s -> tri_idx s < T ->
  exists i s', add_tri t s = Ok (i, s')
               /\ loop_inv vertices T s' /\ tri_idx s' = tri_idx s + 1.
Proof.
  intros [[Hwf Hp] Hk] Hlt.
  pose proof (wf_tidx _ _ _ Hwf) as Ht. pose proof (wf_tlen _ _ _ Hwf) as Hl.
  pose proof (add_tri_succeeds t s ltac:(lia)) as E.
  eexists _, _. split; [exact E|].
  split; [|done]. split.
  - exact (wf_pool_add_tri _ _ t s _ _ (conj Hwf Hp) E).
  - exact Hk.
Qed.

Lemma tri_body_succeeds vertices T poly external_edges flip g s :
  face_ok (len vertices) poly -> full_group (len poly) g ->
  loop_inv vertices T s -> tri_idx s < T ->
  exists s', tri_body poly external_edges flip g s = Ok (tt, s')
             /\ loop_inv vertices T s' /\ tri_idx s' = tri_idx s + 1.
Proof.
  intros Hface (a & b & c & -> & Ha & Hb & Hc) HJ Hlt.
  destruct (face_item_succeeds _ _ a Hface Ha) as (va & Ea & Hva).
  destruct (face_item_succeeds _ _ b Hface Hb) as (vb & Eb & Hvb).
  destruct (face_item_succeeds _ _ c Hface Hc) as (vc & Ec & Hvc).
  unfold tri_body, poly_item. rewrite Ea, Eb, Ec. cbn [rmap rbind].
  rewrite !bind_lift_Ok.
  set (wb := if flip then vc else vb). set (wc := if flip then vb else vc).
  assert (0 <= wb < len vertices /\ 0 <= wc < len vertices) as [Hwb Hwc]
    by (subst wb wc; by destruct flip).
  destruct (cond_internalize_succeeds vertices T
              (bool_decide (edge va wb ∉ external_edges)) va s HJ Hva)
    as (ia & s1 & E1 & J1 & T1).
  destruct (cond_internalize_succeeds vertices T
              (bool_decide (edge wb wc ∉ external_edges)) wb s1 J1 Hwb)
    as (ib & s2 & E2 & J2 & T2).
  destruct (cond_internalize_succeeds vertices T
              (bool_decide (edge wc va ∉ external_edges)) wc s2 J2 Hwc)
    as (ic & s3 & E3 & J3 & T3).
  destruct (add_tri_keeps_loop_inv vertices T (ia, ib, ic) s3 J3 ltac:(lia))
    as (row & s4 & E4 & J4 & T4).
  exists s4. split; [|split; [done | lia]].
  subst wb wc. destruct flip; cbn [edge_of as_int]; rewrite !bind_lift_Ok;
    rewrite (bind_Ok_l _ _ _ _ _ E1), (bind_Ok_l _ _ _ _ _ E2),
            (bind_Ok_l _ _ _ _ _ E3), (bind_Ok_l _ _ _ _ _ E4); done.
Qed.

Lemma for_each_groups_succeed vertices T poly external_edges flip groups :
  face_ok (len vertices) poly ->
  Forall (full_group (len poly)) groups ->
  forall s, loop_inv vertices T s -> tri_idx s + len groups <= T ->
    exists s', for_each groups (tri_body poly external_edges flip) s = Ok (tt, s')
               /\ loop_inv vertices T s'
               /\ tri_idx s' = tri_idx s + len groups.
Proof.
  intros Hface. induction 1 as [|g groups Hg _ IH]; intros s HJ Hb.
  - exists s. unfold len. simpl. split; [done|]. split; [done | lia].
  - unfold len in Hb. simpl length in Hb.
    destruct (tri_body_succeeds vertices T poly external_edges flip g s)
      as (s1 & E1 & J1 & T1); [done | done | done | lia |].
    destruct (IH s1 J1) as (s' & E' & J' & T'); [unfold len; lia|].
    exists s'. cbn [for_each]. rewrite (bind_Ok_l _ _ _ _ _ E1).
    split; [done|]. split; [done|]. unfold len in *. simpl length. lia.
Qed.

Lemma edge_count_NoDup poly :
  NoDup poly -> (3 <= length poly)%nat ->
  exists edges, edgeIter poly = Ok edges
                /\ size (list_to_set edges : gset (Z * Z)) = length poly.
Proof.
  intros Hnd Hlen. destruct poly as [|i0 it]; [simpl in Hlen; lia|].
  eexists. split; [reflexivity|]. simpl in Hlen.
  rewrite size_list_to_set.
  - rewrite edgeIter_loop_zip, length_zip_with, length_app. cbn [length]. lia.
  - apply edgeIter_loop_NoDup; [done | by apply NoDup_cons in Hnd as [? _] | lia].
Qed.

Lemma np_take_pool vertices faces T s poly :
  loop_inv vertices T s ->
  Forall (fun v => 0 <= v < len vertices) poly ->
  np_take (vertex_nparr s) poly
  = np_take (vertex_nparr (init_state vertices faces)) poly.
Proof.
  intros [[Hwf Hp] _] Hr.
  pose proof (wf_vlen _ _ _ Hwf) as Hvl.
  pose proof (wf_vlen _ _ _ (wf_init vertices faces)) as Hvl0.
  pose proof (pool_init vertices faces) as Hp0.
  unfold np_take. induction Hr as [|v poly Hv _ IH]; [done|].
  cbn [rmapM]. rewrite IH. f_equal.
  destruct (lookup_lt_is_Some_2 vertices (Z.to_nat v)) as [x Hx];
    [unfold len in Hv; lia|].
  destruct (np_index_succeeds (vertex_nparr s) v) as (r & -> & Hr1); [lia|].
  destruct (np_index_succeeds (vertex_nparr (init_state vertices faces)) v)
    as (r0 & -> & Hr0); [lia|].
  rewrite (pool_orig _ _ Hp _ _ Hx) in Hr1.
  rewrite (pool_orig _ _ Hp0 _ _ Hx) in Hr0. congruence.
Qed.

Lemma process_ngon_succeeds `{Numerics} vertices faces T poly s :
  earcut_total_on vertices faces ->
  poly ∈ faces -> length poly <> 3%nat ->
  face_ok (len vertices) poly -> (3 <= length poly)%nat ->
  loop_inv vertices T s -> tri_idx s + len poly <= T ->
  exists s' ring new_tris,
    process_ngon poly s = Ok (tt, s')
    /\ loop_inv vertices T s'
    /\ tri_idx s' <= tri_idx s + len poly
    /\ ring_of vertices faces poly ring
    /\ length ring = length poly
    /\ project_earcut ring = Ok new_tris
    /\ len new_tris = 3 * (tri_idx s' - tri_idx s).
Proof.
  intros Hear Hin Hn3 Hface Hlen HJ Hb.
  destruct (edge_count_NoDup poly (proj1 Hface) Hlen) as (edges & Ee & Hsz).
  pose proof HJ as [[Hwf Hp] Hk].
  pose proof (wf_vlen _ _ _ Hwf) as Hvl. pose proof (wf_n0 _ _ _ Hwf) as Hn0.
  destruct (np_take_succeeds (vertex_nparr s) poly) as (poly_verts & Et & Hpv).
  { apply Forall_forall. intros v Hv. apply (proj2 Hface) in Hv. lia. }
  assert (ring_of vertices faces poly (map xyz poly_verts)) as Hring.
  { split; [done|]. split; [done|]. exists poly_verts. split; [|done].
    rewrite <- Et. symmetry. apply (np_take_pool vertices faces T); [done|].
    apply Forall_forall. apply (proj2 Hface). }
  assert (length (map xyz poly_verts) = length poly) as Hg
    by (by rewrite length_map).
  destruct (first_three_succeeds (map xyz poly_verts)) as ([[p0 p1] p2] & Ef);
    [lia|].
  destruct (Hear poly (map xyz poly_verts) Hring)
    as (new_tris & k & En & Hnl & Hkr & Hnr).
  destruct (np_take_succeeds (map xyz poly_verts) (take 3 new_tris))
    as (geom_tri0 & Eg & Hgl).
  { by apply Forall_take. }
  rewrite length_take in Hgl.
  destruct (first_three_succeeds geom_tri0) as ([[g0 g1] g2] & Ef0); [lia|].
  unfold len in Hnr. rewrite Hg in Hnr.
  destruct (grouper_full _ k new_tris Hnl Hnr) as [Hgr Hgk].
  destruct (for_each_groups_succeed vertices T poly (list_to_set edges)
              (flip_of (np_dot (tri_norm g0 g1 g2) (tri_norm p0 p1 p2)))
              (grouper new_tris) Hface Hgr s)
    as (s' & E' & J' & T').
  { done. }
  { unfold len. rewrite Hgk. unfold len in Hb. lia. }
  exists s', (map xyz poly_verts), new_tris.
  split; [|split; [done|]].
  - unfold process_ngon. rewrite Ee, bind_lift_Ok.
    rewrite bool_decide_eq_true_2 by done.
    rewrite bind_assert_true, bind_get.
    rewrite Et, bind_lift_Ok, Ef, bind_lift_Ok.
    rewrite En, bind_lift_Ok, Eg, bind_lift_Ok, Ef0, bind_lift_Ok.
    exact E'.
  - rewrite T'. unfold len. rewrite Hgk, Hnl.
    split; [lia|]. split; [done|]. split; [done|]. split; [done | lia].
Qed.

Lemma total_tris_cons poly faces :
  total_tris (poly :: faces) = face_budget poly + total_tris faces.
Proof.
  unfold total_tris, num_tris, num_interior_tris, num_large_faces,
    large_faces, face_budget.
  rewrite filter_cons.
  destruct (decide (3 < len poly)) as [Hl|Hl].
  - rewrite (proj2 (Z.ltb_lt _ _) Hl). unfold len. simpl. lia.
  - rewrite (proj2 (Z.ltb_ge _ _)) by lia. unfold len. simpl length. lia.
Qed.

Lemma process_poly_succeeds `{Numerics} vertices faces T poly s :
  earcut_total_on vertices faces ->
  poly ∈ faces ->
  face_ok (len vertices) poly -> (3 <= length poly)%nat ->
  loop_inv vertices T s -> tri_idx s + face_budget poly <= T ->
  exists s', process_poly poly s = Ok (tt, s')
             /\ loop_inv vertices T s'
             /\ tri_idx s' <= tri_idx s + face_budget poly.
Proof.
  intros Hear Hin Hface Hlen HJ Hb.
  destruct (decide (length poly = 3%nat)) as [H3|H3].
  - destruct poly as [|a [|b [|c [|d poly]]]]; try discriminate H3.
    unfold face_budget, len in *. simpl in Hb |- *.
    destruct (add_tri_keeps_loop_inv vertices T (a, b, c) s HJ ltac:(lia))
      as (row & s' & E & J' & T').
    exists s'. rewrite (bind_Ok_l _ _ _ _ _ E).
    split; [done|]. split; [done | lia].
  - assert (face_budget poly = len poly) as Hfb.
    { unfold face_budget, len. rewrite (proj2 (Z.ltb_lt _ _)); lia. }
    rewrite Hfb in *.
    destruct (process_ngon_succeeds vertices faces T poly s Hear Hin H3
                Hface Hlen HJ Hb)
      as (s' & ? & ? & E & J' & T' & _).
    exists s'. split; [|done].
    destruct poly as [|a [|b [|c [|d poly]]]]; done.
Qed.

Lemma faces_succeed `{Numerics} vertices faces T rest :
  earcut_total_on vertices faces ->
  Forall (fun poly => poly ∈ faces) rest ->
  Forall (face_ok (len vertices)) rest ->
  Forall (fun poly => (3 <= length poly)%nat) rest ->
  forall s, loop_inv vertices T s -> tri_idx s + total_tris rest <= T ->
    exists s', for_each rest process_poly s = Ok (tt, s')
               /\ loop_inv vertices T s'.
Proof.
  intros Hear Hsub. induction Hsub as [|poly rest Hin _ IH];
    intros Hfo Hlen s HJ Hb.
  - by exists s.
  - apply Forall_cons in Hlen as [Hl Hlen].
    apply Forall_cons in Hfo as [Hface Hfo]. rewrite total_tris_cons in Hb.
    pose proof (total_tris_nonneg rest).
    destruct (process_poly_succeeds vertices faces T poly s Hear Hin Hface
                Hl HJ) as (s1 & E1 & J1 & T1); [lia|].
    destruct (IH Hfo Hlen s1 J1) as (s' & E' & J'); [lia|].
    exists s'. cbn [for_each]. by rewrite (bind_Ok_l _ _ _ _ _ E1).
Qed.

Lemma Forall_elem_of_self {A} (l : list A) : Forall (fun a => a ∈ l) l.
Proof. apply Forall_forall. auto. Qed.

Lemma loop_inv_init vertices faces :
  loop_inv vertices (total_tris faces) (init_state vertices faces).
Proof.
  split; [split; [apply wf_init | apply pool_init]|].
  intros k i. simpl. by rewrite lookup_empty.
Qed.

(** X11.  The conversion succeeds on every input that meets the input
    contract.  When every face has at least three indices, all different
    and all indices of input vertices, and the triangulation returns, on
    each ring that the conversion reads for a face of the mesh, between
    one and [n] whole triples of local indices of the ring ([n] its
    number of points), no exception is raised: neither pool overflows,
    the edge-count [assert] holds for every polygon, and a mesh is
    returned. *)
Theorem valid_mesh_converts `{Numerics} vertices faces :
  earcut_total_on vertices faces ->
  Forall (face_ok (len vertices)) faces ->
  Forall (fun poly => (3 <= length poly)%nat) faces ->
  exists m, PlyMesh_init vertices faces = Ok m.
Proof.
  intros Hear Hfo Hlen.
  destruct (faces_succeed vertices faces (total_tris faces) faces Hear
              (Forall_elem_of_self faces) Hfo Hlen
              (init_state vertices faces) (loop_inv_init vertices faces))
    as (s & E & _); [simpl; lia|].
  exists (build_entity faces s). unfold PlyMesh_init, PlyMesh_run.
  by rewrite E.
Qed.

Lemma quad_and_tri_earcut_total mirror :
  earcut_total_on (H := planar mirror) square quad_and_tri.
Proof.
  intros poly ring Hring. rings_of_mesh Hring; planar_ring_total 2%nat.
Qed.

Lemma valid_mesh_converts_witness :
  (exists m, PlyMesh_init (H := planar no_mirror) square quad_and_tri = Ok m)
  /\ (exists m, PlyMesh_init (H := planar all_mirror) square quad_and_tri = Ok m).
Proof.
  split.
  - apply (valid_mesh_converts (H := planar no_mirror)).
    + exact (quad_and_tri_earcut_total no_mirror).
    + face_ok_of_mesh.
    + repeat constructor; simpl; lia.
  - apply (valid_mesh_converts (H := planar all_mirror)).
    + exact (quad_and_tri_earcut_total all_mirror).
    + face_ok_of_mesh.
    + repeat constructor; simpl; lia.
Defined.

(** ** Where duplicates come from *)

Lemma hoare_bind_lift {A B} (P : state -> Prop) (r : result A)
    (k : A -> M B) (R : B -> state -> Prop) :
  (forall a, r = Ok a -> hoare P (k a) R) -> hoare P (bind (lift r) k) R.
Proof.
  intros Hk s b s' HP (a & s1 & [Er ->]%lift_Ok & E)%bind_Ok.
  exact (Hk a Er _ _ _ HP E).
Qed.

Lemma tri_body_inv poly external_edges flip t s u s' :
  tri_body poly external_edges flip t s = Ok (u, s') ->
  exists a b c va vb vc ia ib ic s1 s2 s3 row,
    t = (Some a, Some b, Some c)
    /\ np_index poly a = Ok va /\ np_index poly b = Ok vb
    /\ np_index poly c = Ok vc
    /\ (if bool_decide (edge va (if flip then vc else vb) ∉ external_edges)
        then internalize_vtx va else ret va) s = Ok (ia, s1)
    /\ (if bool_decide (edge (if flip then vc else vb)
                             (if flip then vb else vc) ∉ external_edges)
        then internalize_vtx (if flip then vc else vb)
        else ret (if flip then vc else vb)) s1 = Ok (ib, s2)
    /\ (if bool_decide (edge (if flip then vb else vc) va ∉ external_edges)
        then internalize_vtx (if flip then vb else vc)
        else ret (if flip then vb else vc)) s2 = Ok (ic, s3)
    /\ add_tri (ia, ib, ic) s3 = Ok (row, s').
Proof.
  intros E. destruct t as [[a b] c]. unfold tri_body in E.
  apply bind_Ok in E as (xa & ? & [Ea ->]%lift_Ok & E).
  apply bind_Ok in E as (xb & ? & [Eb ->]%lift_Ok & E).
  apply bind_Ok in E as (xc & ? & [Ec ->]%lift_Ok & E).
  assert (exists va vb vc, xa = Some va /\ xb = Some vb /\ xc = Some vc)
    as (va & vb & vc & -> & -> & ->).
  { destruct xa as [va|], xb as [vb|], xc as [vc|]; eauto 6;
      destruct flip; cbn in E; discriminate E. }
  destruct a as [a|]; [|discriminate Ea].
  destruct b as [b|]; [|discriminate Eb].
  destruct c as [c|]; [|discriminate Ec].
  cbn [poly_item] in Ea, Eb, Ec.
  apply rmap_Ok in Ea as (? & Ea & [= <-]).
  apply rmap_Ok in Eb as (? & Eb & [= <-]).
  apply rmap_Ok in Ec as (? & Ec & [= <-]).
  assert ((let* idx_a :=
             (if bool_decide (edge va (if flip then vc else vb) ∉ external_edges)
              then internalize_vtx va else ret va) in
           let* idx_b :=
             (if bool_decide (edge (if flip then vc else vb)
                                   (if flip then vb else vc) ∉ external_edges)
              then internalize_vtx (if flip then vc else vb)
              else ret (if flip then vc else vb)) in
           let* idx_c :=
             (if bool_decide (edge (if flip then vb else vc) va ∉ external_edges)
              then internalize_vtx (if flip then vb else vc)
              else ret (if flip then vb else vc)) in
           let* _ := add_tri (idx_a, idx_b, idx_c) in
           ret tt) s = Ok (u, s')) as E'.
  { destruct flip; cbn [edge_of as_int] in E;
      by rewrite !bind_lift_Ok in E. }
  clear E. rename E' into E.
  apply bind_Ok in E as (ia & s1 & E1 & E).
  apply bind_Ok in E as (ib & s2 & E2 & E).
  apply bind_Ok in E as (ic & s3 & E3 & E).
  apply bind_Ok in E as (row & s4 & E4 & [_ ->]%ret_Ok).
  exists a, b, c, va, vb, vc, ia, ib, ic, s1, s2, s3, row. done.
Qed.




Lemma np_index_elem_of {A} (l : list A) i x : np_index l i = Ok x -> x ∈ l.
Proof.
  intros (j & Hj & _)%np_index_Ok. by eapply list_elem_of_lookup_2.
Qed.





(** ** Emitted triangles lie on the input faces *)

Lemma tris_from_extends faces s s' :
  extends s s' -> tris_from faces s -> tris_from faces s'.
Proof.
  intros Hx Ht j a b c Hj Hl.
  pose proof Hx as (Ha & Hb & _ & _). rewrite Ha in Hl. rewrite Hb in Hj.
  destruct (Ht j a b c Hj Hl)
    as (poly & ka & kb & kc & Hin & Hka & Hkb & Hkc & Sa & Sb & Sc).
  exists poly, ka, kb, kc. split_and!; eauto using stands_for_extends.
Qed.

Lemma tris_from_add_tri n0 T faces poly ka kb kc ia ib ic s row s' :
  2 * n0 <= 2 ^ (8 * _basetype_widths (select_index_basetype T)) ->
  wf n0 T s -> tris_from faces s ->
  poly ∈ faces -> ka ∈ poly -> kb ∈ poly -> kc ∈ poly ->
  0 <= ka < n0 -> 0 <= kb < n0 -> 0 <= kc < n0 ->
  stands_for s ka ia -> stands_for s kb ib -> stands_for s kc ic ->
  add_tri (ia, ib, ic) s = Ok (row, s') -> tris_from faces s'.
Proof.
  intros Hw Hwf Ht Hin Hka Hkb Hkc Ra Rb Rc Sa Sb Sc E.
  pose proof (wf_tidx _ _ _ Hwf) as Htidx. pose proof (wf_vidx _ _ _ Hwf) as Hv.
  pose proof (wf_dtype _ _ _ Hwf) as Hdt.
  pose proof (stands_for_below _ _ _ _ _ Hwf Ra Sa) as Ba.
  pose proof (stands_for_below _ _ _ _ _ Hwf Rb Sb) as Bb.
  pose proof (stands_for_below _ _ _ _ _ Hwf Rc Sc) as Bc.
  apply add_tri_Ok in E as (-> & Hlt & ->); [|lia].
  assert (forall x, 0 <= x < vtx_idx s -> np_cast (index_basetype s) x = x) as Hc.
  { intros x Hx. apply np_cast_id.
    - unfold in_dtype. rewrite Hdt. lia.
    - rewrite Hdt. unfold select_index_basetype. destruct (_ <? _); auto. }
  intros j a b c. cbn [tri_idx tri_nparr fst snd]. intros Hj.
  destruct (decide (j = Z.to_nat (tri_idx s))) as [->|Hne].
  - rewrite list_lookup_insert_eq by (unfold len in *; lia).
    rewrite !Hc by lia. intros [= <- <- <-].
    exists poly, ka, kb, kc. done.
  - rewrite list_lookup_insert_ne by done. intros Hl.
    apply (Ht j a b c); [lia | done].
Qed.

Lemma tris_from_tri_body n0 T faces poly external_edges flip t s u s' :
  2 * n0 <= 2 ^ (8 * _basetype_widths (select_index_basetype T)) ->
  poly ∈ faces -> Forall (fun v => 0 <= v < n0) poly ->
  wf n0 T s /\ tris_from faces s ->
  tri_body poly external_edges flip t s = Ok (u, s') ->
  wf n0 T s' /\ tris_from faces s'.
Proof.
  intros Hw Hin Hr [Hwf Ht] E. rewrite Forall_forall in Hr.
  apply tri_body_inv in E
    as (a & b & c & va & vb & vc & ia & ib & ic & s1 & s2 & s3 & row
        & -> & Ea%np_index_elem_of & Eb%np_index_elem_of & Ec%np_index_elem_of
        & E1 & E2 & E3 & E4).
  assert ((if flip then vc else vb) ∈ poly) as Hwb by (by destruct flip).
  assert ((if flip then vb else vc) ∈ poly) as Hwc by (by destruct flip).
  destruct (cond_internalize_spec _ _ _ _ _ _ _ Hwf E1) as (Hwf1 & X1 & R1).
  destruct (cond_internalize_spec _ _ _ _ _ _ _ Hwf1 E2) as (Hwf2 & X2 & R2).
  destruct (cond_internalize_spec _ _ _ _ _ _ _ Hwf2 E3) as (Hwf3 & X3 & R3).
  pose proof (stands_for_extends _ _ _ _ (extends_trans _ _ _ X2 X3) R1) as R1'.
  pose proof (stands_for_extends _ _ _ _ X3 R2) as R2'.
  assert (tris_from faces s3) as Ht3.
  { eapply tris_from_extends; [|exact Ht]. eauto using extends_trans. }
  split; [exact (wf_add_tri _ _ _ _ _ _ Hwf3 E4)|].
  apply (tris_from_add_tri n0 T faces poly va (if flip then vc else vb)
           (if flip then vb else vc) ia ib ic s3 row s');
    try done; by apply Hr.
Qed.

Lemma tris_from_process_poly `{Numerics} n0 T faces poly :
  2 * n0 <= 2 ^ (8 * _basetype_widths (select_index_basetype T)) ->
  poly ∈ faces -> Forall (fun v => 0 <= v < n0) poly ->
  hoare (fun s => wf n0 T s /\ tris_from faces s) (process_poly poly)
        (fun _ s => wf n0 T s /\ tris_from faces s).
Proof.
  intros Hw Hin Hr.
  assert (Hngon : hoare (fun s => wf n0 T s /\ tris_from faces s)
                    (process_ngon poly)
                    (fun _ s => wf n0 T s /\ tris_from faces s)).
  { unfold process_ngon.
    eapply hoare_bind; [apply hoare_lift | intros edges].
    eapply hoare_bind; [apply hoare_assert | intros ?].
    eapply hoare_bind; [apply hoare_get | intros s0].
    eapply hoare_bind; [apply hoare_lift | intros poly_verts].
    eapply hoare_bind; [apply hoare_lift | intros [[p0 p1] p2]].
    eapply hoare_bind; [apply hoare_lift | intros new_tris].
    eapply hoare_bind; [apply hoare_lift | intros geom_tri0].
    eapply hoare_bind; [apply hoare_lift | intros [[g0 g1] g2]].
    apply hoare_for_each. intros t _ s u s' HJ E.
    by eapply tris_from_tri_body. }
  unfold process_poly.
  destruct poly as [|a [|b [|c [|d poly]]]]; try apply Hngon.
  intros s u s' [Hwf Ht] (row & s1 & E & [_ ->]%ret_Ok)%bind_Ok.
  split; [exact (wf_add_tri _ _ _ _ _ _ Hwf E)|].
  apply Forall_cons in Hr as [Ha Hr]. apply Forall_cons in Hr as [Hb Hr].
  apply Forall_cons in Hr as [Hc _].
  eapply (tris_from_add_tri n0 T faces [a; b; c] a b c a b c s row s1);
    try done; try (by left); by repeat constructor.
Qed.

(** X13.  Every emitted triangle lies on an input face.  When the input
    coordinates are float32 values, all face indices are indices of
    input vertices and the index width holds every pool index, each row
    of the index pool below the triangle cursor names three vertices of
    one input face, each corner by the vertex itself or by its duplicate,
    and the pool rows it points to carry the coordinates of those three
    vertices. *)
Theorem emitted_triangles_lie_on_faces `{Numerics} vertices faces s
    (j : nat) a b c :
  Forall float32_vertex vertices ->
  Forall (Forall (fun v => 0 <= v < len vertices)) faces ->
  indices_fit vertices faces ->
  PlyMesh_run vertices faces = Ok s ->
  Z.of_nat j < tri_idx s ->
  tri_nparr s !! j = Some (a, b, c) ->
  exists poly ka kb kc,
    poly ∈ faces /\ ka ∈ poly /\ kb ∈ poly /\ kc ∈ poly
    /\ stands_for s ka a /\ stands_for s kb b /\ stands_for s kc c
    /\ shows vertices s ka a /\ shows vertices s kb b
    /\ shows vertices s kc c.
Proof.
  intros _ Hr Hfit E Hj Hl.
  destruct (wf_pool_PlyMesh_run _ _ _ E) as [Hwf Hp].
  assert (tris_from faces s) as Ht.
  { apply PlyMesh_run_Ok in E.
    eapply (hoare_for_each (fun s => wf (len vertices) (total_tris faces) s
                                     /\ tris_from faces s));
      [| |exact E].
    - intros poly Hin. apply tris_from_process_poly; [done | done |].
      rewrite Forall_forall in Hr. by apply Hr.
    - split; [apply wf_init|]. intros j' ???. simpl. lia. }
  destruct (Ht j a b c Hj Hl)
    as (poly & ka & kb & kc & Hin & Hka & Hkb & Hkc & Sa & Sb & Sc).
  exists poly, ka, kb, kc. repeat (split; [done|]).
  assert (forall k i, k ∈ poly -> stands_for s k i -> shows vertices s k i)
    as Hshow.
  { intros k i Hk Hs. rewrite Forall_forall in Hr.
    pose proof (Hr poly Hin) as Hrp. rewrite Forall_forall in Hrp.
    specialize (Hrp k Hk).
    destruct (lookup_lt_is_Some_2 vertices (Z.to_nat k)) as [v Hv];
      [unfold len in Hrp; lia|].
    destruct Hs as [-> | Hd].
    - exists v, (row_of_vertex v). split; [done|].
      split; [by apply (pool_orig _ _ Hp) | done].
    - exists v, (set_interior (row_of_vertex v) 1). split; [done|].
      split; [apply (pool_copy _ _ Hp k); [done | lia | done] | done]. }
  auto.
Qed.

Lemma emitted_triangles_lie_on_faces_witness :
  (exists s,
     PlyMesh_run (H := planar no_mirror) square one_quad = Ok s
     /\ tri_nparr s !! 0%nat = Some (2, 3, 4)
     /\ shows square s 0 4)
  /\ (exists s,
        PlyMesh_run (H := planar all_mirror) square one_quad = Ok s
        /\ tri_nparr s !! 0%nat = Some (4, 3, 0)
        /\ shows square s 1 4).
Proof.
  assert (Forall (Forall (fun v => 0 <= v < len square)) one_quad) as Hr
    by (repeat constructor; change (len square) with 4; lia).
  assert (indices_fit square one_quad) as Hfit
    by (unfold indices_fit; vm_compute; discriminate).
  split.
  - assert (rmap (fun s => (tri_idx s, tri_nparr s !! 0%nat,
                            internal_vertices s !! 0))
              (PlyMesh_run (H := planar no_mirror) square one_quad)
            = Ok (2, Some (2, 3, 4), Some 4)) as Hs by (vm_compute; reflexivity).
    destruct (PlyMesh_run _ _) as [s|e] eqn:E; [|discriminate Hs].
    injection Hs as Hi Hrow Hd.
    exists s. split; [reflexivity|]. split; [exact Hrow|].
    destruct (emitted_triangles_lie_on_faces (H := planar no_mirror)
                square one_quad s 0 2 3 4 square_float32 Hr Hfit E
                ltac:(lia) Hrow)
      as (poly & ka & kb & kc & Hin & _ & _ & Hkc & _ & _ & Sc & _ & _ & Hc).
    assert (kc = 0) as ->; [|exact Hc].
    pose proof (wf_PlyMesh_run (H := planar no_mirror) _ _ _ E) as Hwf.
    apply list_elem_of_singleton in Hin as ->.
    destruct Sc as [<- | Hk].
    + repeat (apply elem_of_cons in Hkc as [Hkc|Hkc]; [discriminate Hkc|]).
      by apply elem_of_nil in Hkc.
    + exact (wf_inj _ _ _ Hwf kc 0 4 Hk Hd).
  - assert (rmap (fun s => (tri_idx s, tri_nparr s !! 0%nat,
                            internal_vertices s !! 1))
              (PlyMesh_run (H := planar all_mirror) square one_quad)
            = Ok (2, Some (4, 3, 0), Some 4)) as Hs by (vm_compute; reflexivity).
    destruct (PlyMesh_run _ _) as [s|e] eqn:E; [|discriminate Hs].
    injection Hs as Hi Hrow Hd.
    exists s. split; [reflexivity|]. split; [exact Hrow|].
    destruct (emitted_triangles_lie_on_faces (H := planar all_mirror)
                square one_quad s 0 4 3 0 square_float32 Hr Hfit E
                ltac:(lia) Hrow)
      as (poly & ka & kb & kc & Hin & Hka & _ & _ & Sa & _ & _ & Ha & _ & _).
    assert (ka = 1) as ->; [|exact Ha].
    pose proof (wf_PlyMesh_run (H := planar all_mirror) _ _ _ E) as Hwf.
    apply list_elem_of_singleton in Hin as ->.
    destruct Sa as [<- | Hk].
    + repeat (apply elem_of_cons in Hka as [Hka|Hka]; [discriminate Hka|]).
      by apply elem_of_nil in Hka.
    + exact (wf_inj _ _ _ Hwf ka 1 4 Hk Hd).
Defined.

(** ** The outline *)

(** X14.  [WireOutline] cannot be built: its [__init__] calls
    [getQAttribute], a name that the module binds nowhere, before it
    reads a face, so every call raises NameError and no edge set and no
    index buffer is made, whatever the faces are. *)
Theorem WireOutline_raises_NameError (faces : list (list Z)) :
  WireOutline_init faces = Raise (NameError "getQAttribute").
Proof. reflexivity. Qed.

(** ** The key of an undirected edge *)

(** X15.  [edge] is a key for undirected edges: two calls give the same
    pair exactly when they were given the same two indices in either
    order, and the smaller index always comes first. *)
Theorem edge_is_unordered_key (a b c d : Z) :
  (edge a b = edge c d <-> (a = c /\ b = d) \/ (a = d /\ b = c))
  /\ (edge a b).1 <= (edge a b).2.
Proof.
  split; [split|].
  - apply edge_eq_inv.
  - intros [[-> ->] | [-> ->]]; [done | apply edge_comm].
  - unfold edge. simpl. lia.
Qed.

(** ** How far the index pool is filled *)

Lemma earcut_exact_total `{Numerics} vertices faces :
  earcut_exact_on vertices faces ->
  Forall (fun poly => (3 <= length poly)%nat) faces ->
  earcut_total_on vertices faces.
Proof.
  intros Hex Hlen poly ring Hring.
  destruct (Hex poly ring Hring) as (new_tris & E & Hn & Hr).
  destruct Hring as (Hin & _ & poly_verts & Et & ->).
  rewrite Forall_forall in Hlen. specialize (Hlen poly Hin).
  apply rmapM_length in Et.
  exists new_tris, (length (map xyz poly_verts) - 2)%nat.
  split; [done|]. split; [done|]. split; [|done].
  rewrite length_map. lia.
Qed.

Lemma process_poly_exact `{Numerics} vertices faces T poly s :
  earcut_exact_on vertices faces ->
  Forall (fun poly => (3 <= length poly)%nat) faces ->
  poly ∈ faces ->
  face_ok (len vertices) poly -> (3 <= length poly)%nat ->
  loop_inv vertices T s -> tri_idx s + face_budget poly <= T ->
  exists s', process_poly poly s = Ok (tt, s')
             /\ loop_inv vertices T s'
             /\ tri_idx s' = tri_idx s + face_rows poly.
Proof.
  intros Hex Hall Hin Hface Hlen HJ Hb.
  destruct (decide (length poly = 3%nat)) as [H3|H3].
  - destruct poly as [|a [|b [|c [|d poly]]]]; try discriminate H3.
    unfold face_budget, face_rows, len in *. simpl in Hb |- *.
    destruct (add_tri_keeps_loop_inv vertices T (a, b, c) s HJ ltac:(lia))
      as (row & s' & E & J' & T').
    exists s'. rewrite (bind_Ok_l _ _ _ _ _ E). done.
  - assert ((3 <? len poly) = true) as Hlt by (apply Z.ltb_lt; unfold len; lia).
    unfold face_budget, face_rows in *. rewrite Hlt in *.
    destruct (process_ngon_succeeds vertices faces T poly s
                (earcut_exact_total vertices faces Hex Hall) Hin H3
                Hface Hlen HJ Hb)
      as (s' & ring & new_tris & E & J' & _ & Hring & Hg & En & Hcount).
    destruct (Hex poly ring Hring) as (new_tris' & En' & Hn' & _).
    rewrite En in En'. injection En' as <-.
    exists s'. split; [|split; [done|]].
    + destruct poly as [|a [|b [|c [|d poly]]]]; done.
    + unfold len in *. rewrite Hn', Hg in Hcount. lia.
Qed.

Lemma num_large_faces_cons poly faces :
  num_large_faces (poly :: faces)
  = (if 3 <? len poly then 1 else 0) + num_large_faces faces.
Proof.
  unfold num_large_faces, large_faces. rewrite filter_cons.
  destruct (decide (3 < len poly)) as [Hl|Hl].
  - rewrite (proj2 (Z.ltb_lt _ _) Hl). unfold len. simpl length. lia.
  - rewrite (proj2 (Z.ltb_ge _ _)) by lia. lia.
Qed.

Lemma faces_exact `{Numerics} vertices faces T rest :
  earcut_exact_on vertices faces ->
  Forall (fun poly => (3 <= length poly)%nat) faces ->
  Forall (fun poly => poly ∈ faces) rest ->
  Forall (face_ok (len vertices)) rest ->
  forall s, loop_inv vertices T s -> tri_idx s + total_tris rest <= T ->
    exists s', for_each rest process_poly s = Ok (tt, s')
               /\ tri_idx s'
                  = tri_idx s + total_tris rest - 2 * num_large_faces rest.
Proof.
  intros Hex Hall Hsub. induction Hsub as [|poly rest Hin _ IH];
    intros Hfo s HJ Hb.
  - exists s. split; [done|]. vm_compute total_tris.
    unfold num_large_faces, len. simpl. lia.
  - apply Forall_cons in Hfo as [Hface Hfo].
    rewrite total_tris_cons in Hb |- *. rewrite num_large_faces_cons.
    pose proof (total_tris_nonneg rest).
    assert (3 <= length poly)%nat as Hl
      by (rewrite Forall_forall in Hall; by apply Hall).
    destruct (process_poly_exact vertices faces T poly s Hex Hall Hin
                Hface Hl HJ) as (s1 & E1 & J1 & T1); [lia|].
    assert (face_rows poly <= face_budget poly) as Hle.
    { unfold face_rows, face_budget. destruct (3 <? len poly); lia. }
    destruct (IH Hfo s1 J1) as (s' & E' & T'); [lia|].
    exists s'. cbn [for_each]. rewrite (bind_Ok_l _ _ _ _ _ E1).
    split; [done|]. rewrite T', T1.
    unfold face_rows, face_budget. destruct (3 <? len poly); lia.
Qed.

(** X16.  Two rows of the index pool stay unused for every polygon.  On
    an input that meets the input contract, with a triangulation that
    returns [n - 2] triangles on each ring of [n] points that the
    conversion reads for a face of the mesh, the conversion succeeds and
    the triangle cursor ends at [total_tris - 2 * num_large_faces]: the
    pool is sized for [n] triangles per polygon and [n - 2] are
    written. *)
Theorem two_rows_unused_per_polygon `{Numerics} vertices faces :
  earcut_exact_on vertices faces ->
  Forall (face_ok (len vertices)) faces ->
  Forall (fun poly => (3 <= length poly)%nat) faces ->
  exists s,
    PlyMesh_run vertices faces = Ok s
    /\ tri_idx s = total_tris faces - 2 * num_large_faces faces
    /\ len (tri_nparr s) = total_tris faces.
Proof.
  intros Hex Hfo Hlen.
  destruct (faces_exact vertices faces (total_tris faces) faces Hex Hlen
              (Forall_elem_of_self faces) Hfo
              (init_state vertices faces) (loop_inv_init vertices faces))
    as (s & E & Hi); [simpl; lia|].
  exists s. unfold PlyMesh_run. rewrite E. split; [done|].
  split; [simpl in Hi; lia|].
  assert (PlyMesh_run vertices faces = Ok s) as Er
    by (unfold PlyMesh_run; by rewrite E).
  exact (wf_tlen _ _ _ (wf_PlyMesh_run _ _ _ Er)).
Qed.

Lemma quad_and_tri_earcut_exact mirror :
  earcut_exact_on (H := planar mirror) square quad_and_tri.
Proof.
  intros poly ring Hring. rings_of_mesh Hring; planar_ring_exact.
Qed.

Lemma two_rows_unused_per_polygon_witness :
  (exists s,
     PlyMesh_run (H := planar no_mirror) square quad_and_tri = Ok s
     /\ tri_idx s = 3 /\ len (tri_nparr s) = 5)
  /\ (exists s,
        PlyMesh_run (H := planar all_mirror) square quad_and_tri = Ok s
        /\ tri_idx s = 3 /\ len (tri_nparr s) = 5).
Proof.
  split.
  - destruct (two_rows_unused_per_polygon (H := planar no_mirror)
                square quad_and_tri) as (s & E & Hi & Hn).
    + exact (quad_and_tri_earcut_exact no_mirror).
    + face_ok_of_mesh.
    + repeat constructor; simpl; lia.
    + exists s. split; [exact E|]. split; [exact Hi | exact Hn].
  - destruct (two_rows_unused_per_polygon (H := planar all_mirror)
                square quad_and_tri) as (s & E & Hi & Hn).
    + exact (quad_and_tri_earcut_exact all_mirror).
    + face_ok_of_mesh.
    + repeat constructor; simpl; lia.
    + exists s. split; [exact E|]. split; [exact Hi | exact Hn].
Defined.

(** * The winding of the rows of a polygon *)

Lemma grows_refl s : grows s s.
Proof. unfold grows. repeat split; auto; lia. Qed.

Lemma grows_trans s1 s2 s3 : grows s1 s2 -> grows s2 s3 -> grows s1 s3.
Proof.
  intros (Ha & Hb & Hc & Hd) (Ha' & Hb' & Hc' & Hd'). unfold grows.
  split; [congruence|]. split; [lia|]. split.
  - intros j Hj. rewrite Hc' by lia. by apply Hc.
  - auto.
Qed.

Lemma corner_grows s s' external_edges e v i :
  grows s s' ->
  corner s external_edges e v = Some i -> corner s' external_edges e v = Some i.
Proof.
  intros (_ & _ & _ & Hm). unfold corner.
  destruct (bool_decide _); [done | apply Hm].
Qed.

Lemma winding_row_grows poly external_edges flip s s' bt g row :
  grows s s' ->
  winding_row poly external_edges flip s bt g row ->
  winding_row poly external_edges flip s' bt g row.
Proof.
  intros Hg (a & b & c & va & vb & vc & ia & ib & ic
             & -> & Ea & Eb & Ec & Ca & Cb & Cc & ->).
  exists a, b, c, va, vb, vc, ia, ib, ic.
  split_and!; eauto using corner_grows.
Qed.

Lemma tri_body_row n0 T poly external_edges flip g s u s' :
  wf n0 T s ->
  tri_body poly external_edges flip g s = Ok (u, s') ->
  wf n0 T s' /\ grows s s' /\ tri_idx s' = tri_idx s + 1
  /\ exists row,
       tri_nparr s' !! Z.to_nat (tri_idx s) = Some row
       /\ winding_row poly external_edges flip s' (index_basetype s) g row.
Proof.
  intros Hwf E.
  apply tri_body_inv in E
    as (a & b & c & va & vb & vc & ia & ib & ic & s1 & s2 & s3 & row
        & -> & Ea & Eb & Ec & E1 & E2 & E3 & E4).
  destruct (cond_internalize_corner _ _ _ _ _ _ _ _ Hwf E1) as (Hwf1 & X1 & C1).
  destruct (cond_internalize_corner _ _ _ _ _ _ _ _ Hwf1 E2) as (Hwf2 & X2 & C2).
  destruct (cond_internalize_corner _ _ _ _ _ _ _ _ Hwf2 E3) as (Hwf3 & X3 & C3).
  pose proof (extends_trans _ _ _ X1 (extends_trans _ _ _ X2 X3))
    as (Htn & Hti & _ & Hdict).
  pose proof (wf_tidx _ _ _ Hwf3) as Ht3.
  pose proof (wf_add_tri _ _ _ _ _ _ Hwf3 E4) as Hwf4.
  assert (index_basetype s3 = index_basetype s) as Hbt
    by (rewrite (wf_dtype _ _ _ Hwf3), (wf_dtype _ _ _ Hwf); done).
  apply add_tri_Ok in E4 as (_ & Hlt & ->); [|lia].
  split; [exact Hwf4|].
  split; [|split].
  - unfold grows. cbn [index_basetype tri_idx tri_nparr internal_vertices].
    split; [done|]. split; [lia|]. split; [|exact Hdict].
    intros j Hj. rewrite list_lookup_insert_ne by lia. by rewrite Htn.
  - cbn [tri_idx]. lia.
  - eexists. cbn [tri_nparr fst snd]. rewrite Hbt, Hti. split.
    + apply list_lookup_insert_eq. unfold len in Hlt. lia.
    + exists a, b, c, va, vb, vc, ia, ib, ic.
      unfold corner in *. cbn [internal_vertices].
      split_and!; try done.
      * exact (corner_extends _ _ _ _ _ _ (extends_trans _ _ _ X2 X3) C1).
      * exact (corner_extends _ _ _ _ _ _ X3 C2).
Qed.

Lemma rows_of_loop n0 T poly external_edges flip groups :
  forall s s',
    wf n0 T s ->
    for_each groups (tri_body poly external_edges flip) s = Ok (tt, s') ->
    wf n0 T s' /\ grows s s' /\ tri_idx s' = tri_idx s + len groups
    /\ forall (k : nat) g,
         groups !! k = Some g ->
         exists row,
           tri_nparr s' !! (Z.to_nat (tri_idx s) + k)%nat = Some row
           /\ winding_row poly external_edges flip s' (index_basetype s) g row.
Proof.
  induction groups as [|g groups IH]; intros s s' Hwf E.
  - apply ret_Ok in E as [_ ->]. split; [done|]. split; [apply grows_refl|].
    split; [unfold len; simpl; lia|]. intros k g. by rewrite lookup_nil.
  - cbn [for_each] in E. apply bind_Ok in E as ([] & s1 & E1 & E2).
    destruct (tri_body_row _ _ _ _ _ _ _ _ _ Hwf E1)
      as (Hwf1 & G1 & T1 & row0 & Hrow0 & W0).
    destruct (IH s1 s' Hwf1 E2) as (Hwf' & G' & T' & Hrows).
    pose proof (wf_tidx _ _ _ Hwf) as Ht.
    split; [done|]. split; [by eapply grows_trans|].
    split; [unfold len in *; simpl length; lia|].
    intros k g' Hk. destruct k as [|k].
    + injection Hk as <-. exists row0. rewrite Nat.add_0_r. split.
      * destruct G' as (_ & _ & Hkeep & _). rewrite Hkeep by lia. done.
      * by eapply winding_row_grows.
    + destruct (Hrows k g' Hk) as (row & Hrow & W).
      exists row. destruct G1 as (Hbt & _).
      rewrite Hbt in W. split; [|done].
      replace (Z.to_nat (tri_idx s) + S k)%nat
        with (Z.to_nat (tri_idx s1) + k)%nat by lia.
      done.
Qed.

(** C6 (one winding decision per polygon).  When an n-gon has been
    processed, the flag was computed once, from the dot product of the
    normal of the first output triangle with the reference normal of the
    first three vertices of the polygon, and every triple of the
    triangulation has its row: the [k]-th triple [(a, b, c)] filled row
    [tri_idx + k], with the corners for [poly[a]], [poly[b]], [poly[c]]
    when the flag is off and for [poly[a]], [poly[c]], [poly[b]], the
    second and the third exchanged, when it is on, in every row alike.
    The loop that tests the flag in each round is the same as deciding
    once and swapping the triples beforehand ([process_ngon_spec]), and
    the flag is on exactly when the dot product is further than
    0.10000001 from 1, or is not a number. *)
Theorem winding_decided_once `{Numerics} n0 T poly s u s' :
  wf n0 T s ->
  process_ngon poly s = Ok (u, s') ->
  (exists edges poly_verts p0 p1 p2 new_tris geom_tri0 g0 g1 g2,
     edgeIter poly = Ok edges
     /\ np_take (vertex_nparr s) poly = Ok poly_verts
     /\ first_three (map xyz poly_verts) = Ok (p0, p1, p2)
     /\ project_earcut (map xyz poly_verts) = Ok new_tris
     /\ np_take (map xyz poly_verts) (take 3 new_tris) = Ok geom_tri0
     /\ first_three geom_tri0 = Ok (g0, g1, g2)
     /\ tri_idx s' = tri_idx s + len (grouper new_tris)
     /\ forall (k : nat) g,
          grouper new_tris !! k = Some g ->
          exists row,
            tri_nparr s' !! (Z.to_nat (tri_idx s) + k)%nat = Some row
            /\ winding_row poly (list_to_set edges)
                 (flip_of (np_dot (tri_norm g0 g1 g2) (tri_norm p0 p1 p2)))
                 s' (index_basetype s) g row)
  /\ process_ngon poly s = process_ngon_spec poly s
  /\ (forall q, flip_of (Finite q) = true
                <-> ~ (Qabs (q - 1) <= 10000001 # 100000000)%Q)
  /\ flip_of NaN = true.
Proof.
  intros Hwf E.
  split; [|split; [|split; [apply flip_of_Finite | reflexivity]]].
  - unfold process_ngon in E.
    apply bind_Ok in E as (edges & ? & [Ee ->]%lift_Ok & E).
    apply bind_Ok in E as (? & ? & [_ ->]%assert_Ok & E).
    apply bind_Ok in E as (s0 & ? & Eg & E).
    unfold get in Eg. injection Eg as <- <-.
    apply bind_Ok in E as (poly_verts & ? & [Et ->]%lift_Ok & E).
    apply bind_Ok in E as ([[p0 p1] p2] & ? & [Ef ->]%lift_Ok & E).
    apply bind_Ok in E as (new_tris & ? & [En ->]%lift_Ok & E).
    apply bind_Ok in E as (geom_tri0 & ? & [Eg0 ->]%lift_Ok & E).
    apply bind_Ok in E as ([[g0 g1] g2] & ? & [Ef0 ->]%lift_Ok & E).
    destruct u.
    destruct (rows_of_loop _ _ _ _ _ _ _ _ Hwf E) as (_ & _ & Hidx & Hrows).
    exists edges, poly_verts, p0, p1, p2, new_tris, geom_tri0, g0, g1, g2.
    done.
  - unfold process_ngon, process_ngon_spec.
    apply bind_ext. intros edges s1.
    apply bind_ext. intros _ s2.
    apply bind_ext. intros s0 s3.
    apply bind_ext. intros poly_verts s4.
    apply bind_ext. intros [[p0 p1] p2] s5.
    apply bind_ext. intros new_tris s6.
    apply bind_ext. intros geom_tri0 s7.
    apply bind_ext. intros [[g0 g1] g2] s8.
    apply WindingCorrector_loop.
Qed.

Ltac winding_at m flag tri row0 :=
  let Hp := fresh "Hp" in
  let E := fresh "E" in
  let s' := fresh "s'" in
  assert (rmap (fun r => tri_nparr (snd r) !! 0%nat)
            (process_ngon (H := planar m) [0; 1; 2; 3]
               (init_state square one_quad)) = Ok (Some row0))
    as Hp by (vm_compute; reflexivity);
  destruct (process_ngon _ _) as [[[] s']|?] eqn:E; [|discriminate Hp];
  simpl in Hp; injection Hp as Hp;
  exists s'; split; [reflexivity|]; split; [exact Hp|];
  destruct (winding_decided_once (H := planar m) 4 (total_tris one_quad)
              [0; 1; 2; 3] _ tt s' (wf_init square one_quad) E)
    as ((edges & pv & p0 & p1 & p2 & nt & gt0 & g0 & g1 & g2
         & Ee & Et & Ef & En & Eg & Ef0 & _ & Hrows) & _);
  vm_compute in Ee; injection Ee as <-;
  vm_compute in Et; injection Et as <-;
  vm_compute in Ef; injection Ef as <- <- <-;
  vm_compute in En; injection En as <-;
  vm_compute in Eg; injection Eg as <-;
  vm_compute in Ef0; injection Ef0 as <- <- <-;
  let row := fresh "row" in
  let Hrow := fresh "Hrow" in
  let Hw := fresh "Hw" in
  destruct (Hrows 0%nat tri eq_refl) as (row & Hrow & Hw);
  change (Z.to_nat (tri_idx (init_state square one_quad)) + 0)%nat
    with 0%nat in Hrow;
  rewrite Hp in Hrow; injection Hrow as <-;
  exact Hw.

Lemma winding_decided_once_witness :
  (exists s',
     process_ngon (H := planar no_mirror) [0; 1; 2; 3]
       (init_state square one_quad) = Ok (tt, s')
     /\ tri_nparr s' !! 0%nat = Some (2, 3, 4)
     /\ winding_row [0; 1; 2; 3]
          (list_to_set [(0, 1); (1, 2); (2, 3); (0, 3)]) false s'
          UnsignedShort (Some 2, Some 3, Some 0) (2, 3, 4))
  /\ (exists s',
        process_ngon (H := planar all_mirror) [0; 1; 2; 3]
          (init_state square one_quad) = Ok (tt, s')
        /\ tri_nparr s' !! 0%nat = Some (4, 3, 0)
        /\ winding_row [0; 1; 2; 3]
             (list_to_set [(0, 1); (1, 2); (2, 3); (0, 3)]) true s'
             UnsignedShort (Some 1, Some 0, Some 3) (4, 3, 0)).
Proof.
  split.
  - winding_at no_mirror false (Some 2, Some 3, Some 0) (2, 3, 4).
  - winding_at all_mirror true (Some 1, Some 0, Some 3) (4, 3, 0).
Defined.

(** * Two requests for the same vertex *)

Lemma closure_step_keeps n0 T V i s s' :
  closure_step s s' -> wf n0 T s /\ keeps V i s -> wf n0 T s' /\ keeps V i s'.
Proof.
  intros Hstep [Hwf Hk]. destruct Hstep as [t s j s' E | v s j s' E].
  - split; [exact (wf_add_tri _ _ _ _ _ _ Hwf E)|].
    exact (keeps_add_tri V i t s j s' Hk E).
  - split; [exact (proj1 (wf_internalize_vtx _ _ _ _ _ _ Hwf E))|].
    exact (keeps_internalize_vtx V i v s j s' Hk E).
Qed.

Lemma closure_steps_keep n0 T V i s s' :
  rtc closure_step s s' ->
  wf n0 T s /\ keeps V i s -> wf n0 T s' /\ keeps V i s'.
Proof.
  induction 1 as [|s1 s2 s3 Hstep _ IH]; [done|].
  intros HJ. apply IH. by eapply closure_step_keeps.
Qed.

(** Every round of the loop over the triangles of a polygon is a
    sequence of closure calls. *)
Lemma cond_internalize_steps (b : bool) v s i s' :
  (if b then internalize_vtx v else ret v) s = Ok (i, s') ->
  rtc closure_step s s'.
Proof.
  destruct b.
  - intros E. apply rtc_once. by eapply step_internalize_vtx.
  - intros [_ ->]%ret_Ok. apply rtc_refl.
Qed.

Lemma tri_body_steps poly external_edges flip g s u s' :
  tri_body poly external_edges flip g s = Ok (u, s') ->
  rtc closure_step s s'.
Proof.
  intros E.
  apply tri_body_inv in E
    as (a & b & c & va & vb & vc & ia & ib & ic & s1 & s2 & s3 & row
        & -> & _ & _ & _ & E1 & E2 & E3 & E4).
  apply cond_internalize_steps in E1, E2, E3.
  eapply rtc_trans; [exact E1|]. eapply rtc_trans; [exact E2|].
  eapply rtc_trans; [exact E3|]. apply rtc_once. by eapply step_add_tri.
Qed.

Lemma for_each_steps {A} (l : list A) (body : A -> M unit) s s' :
  (forall a s1 u s2, body a s1 = Ok (u, s2) -> rtc closure_step s1 s2) ->
  for_each l body s = Ok (tt, s') -> rtc closure_step s s'.
Proof.
  intros Hb. revert s. induction l as [|a l IH]; intros s E.
  - apply ret_Ok in E as [_ ->]. apply rtc_refl.
  - cbn [for_each] in E. apply bind_Ok in E as (u & s1 & E1 & E2).
    eapply rtc_trans; [by eapply Hb | by apply IH].
Qed.

(** C9 (internalization is idempotent within a polygon).  In any state
    of the loop, when [internalize_vtx v] has returned the index [i] and
    is called again for the same [v] after any number of further calls
    of [add_tri] and [internalize_vtx] (the calls that the rest of the
    polygon makes between two requests), it returns [i] again and leaves
    the state alone: no second slot is created for [v].  The first call
    advances the vertex cursor by at most one; [i] is a slot after the
    input vertices that no other vertex maps to, and it holds a row whose
    interior flag is 1, right after the first call and at the second. *)
Theorem internalize_vtx_idempotent n0 T v s i s1 s2 i2 s3 :
  wf n0 T s ->
  internalize_vtx v s = Ok (i, s1) ->
  rtc closure_step s1 s2 ->
  internalize_vtx v s2 = Ok (i2, s3) ->
  i2 = i /\ s3 = s2
  /\ internalize_vtx v s1 = Ok (i, s1)
  /\ vtx_idx s1 <= vtx_idx s + 1
  /\ n0 <= i < vtx_idx s1
  /\ (forall v', internal_vertices s2 !! v' = Some i -> v' = v)
  /\ (exists r, vertex_nparr s1 !! Z.to_nat i = Some r /\ interior r = 1%Q)
  /\ (exists r, vertex_nparr s2 !! Z.to_nat i = Some r /\ interior r = 1%Q).
Proof.
  intros Hwf E Hsteps E2.
  destruct (wf_internalize_vtx n0 T v s i s1 Hwf E) as [Hwf1 Hm].
  destruct (closure_steps_keep n0 T v i s1 s2 Hsteps (conj Hwf1 Hm))
    as [Hwf2 Hm2].
  unfold keeps in Hm2.
  assert (internalize_vtx v s2 = Ok (i, s2)) as E2'
    by (unfold internalize_vtx; by rewrite Hm2).
  rewrite E2' in E2. injection E2 as <- <-.
  split; [done|]. split; [done|].
  split; [unfold internalize_vtx; by rewrite Hm|].
  split.
  { pose proof (wf_vidx _ _ _ Hwf). pose proof (wf_n0 _ _ _ Hwf).
    apply internalize_vtx_Ok in E as [[_ ->] | (_ & _ & _ & vd & _ & ->)];
      simpl; lia. }
  split; [by destruct (wf_map _ _ _ Hwf1 _ _ Hm) as [? _]|].
  split; [intros v' Hv'; exact (wf_inj _ _ _ Hwf2 v' v i Hv' Hm2)|].
  split.
  - by destruct (wf_map _ _ _ Hwf1 _ _ Hm) as [_ Hr].
  - by destruct (wf_map _ _ _ Hwf2 _ _ Hm2) as [_ Hr].
Qed.

(** The calls that the first pentagon of [two_houses] makes when the
    projection keeps its orientation: vertex 0 is requested for the
    first triangle and again for the third. *)
Lemma internalize_vtx_idempotent_witness :
  exists i s1 s2,
    internalize_vtx 0 (init_state two_houses_vertices two_houses) = Ok (i, s1)
    /\ rtc closure_step s1 s2
    /\ internalize_vtx 0 s2 = Ok (i, s2)
    /\ exists r, vertex_nparr s2 !! Z.to_nat i = Some r /\ interior r = 1%Q.
Proof.
  assert (is_ok
            ((let* i := internalize_vtx 0 in
              let* _ := add_tri (3, 4, i) in
              let* j := internalize_vtx 2 in
              let* _ := add_tri (0, 1, j) in
              let* k := internalize_vtx 3 in
              let* i2 := internalize_vtx 0 in
              ret (i, i2))
               (init_state two_houses_vertices two_houses)) = true)
    as Hok by (vm_compute; reflexivity).
  destruct (bind _ _ _) as [[[i i2] s3]|e] eqn:E; [|discriminate Hok].
  apply bind_Ok in E as (i' & s1 & E1 & E).
  apply bind_Ok in E as (? & sa & Ea & E).
  apply bind_Ok in E as (j & sb & Eb & E).
  apply bind_Ok in E as (? & sc & Ec & E).
  apply bind_Ok in E as (k & s2 & Ed & E).
  apply bind_Ok in E as (i2' & s4 & E2 & Hret).
  apply ret_Ok in Hret as [Hpair _]. injection Hpair as -> ->.
  assert (rtc closure_step s1 s2) as Hsteps.
  { eapply rtc_l; [by eapply step_add_tri|].
    eapply rtc_l; [by eapply step_internalize_vtx|].
    eapply rtc_l; [by eapply step_add_tri|].
    apply rtc_once. by eapply step_internalize_vtx. }
  destruct (internalize_vtx_idempotent _ _ 0 _ i' s1 s2 i2' s4
              (wf_init two_houses_vertices two_houses) E1 Hsteps E2)
    as (-> & -> & _ & _ & _ & _ & _ & Hr).
  exists i', s1, s2. split; [exact E1|]. split; [exact Hsteps|].
  split; [exact E2 | exact Hr].
Defined.
